(** * Quizzzy backend: the request handlers of [app/main.py] and the
  bearer gate of [app/auth.py], embedded as Rocq functions.

  Python [str] values are modelled as [string]; a character is a code
  point below 256 (the Latin-1 range), which is what [ascii] holds.
  Dictionaries read from the document store are [gmap]s with string
  keys, Python lists are [list]s, and handlers that can raise return a
  [result]. *)

From Stdlib Require Import Ascii QArith Qcanon.
From stdpp Require Import base tactics option list gmap strings pretty numbers.

Local Open Scope stdpp_scope.

(** ** Exceptions and results *)

Inductive exn : Type :=
| ValueError (msg : string)
| KeyError (key : string)
| TypeError
| AttributeError
| CollaboratorError (who : string)
| HTTPException (status_code : nat) (detail : string).

Inductive result (A : Type) : Type :=
| Ok (a : A)
| Raise (e : exn).
Arguments Ok {A} a.
Arguments Raise {A} e.

(** Sequencing: the first exception raised ends the computation. *)
Global Instance result_ret : MRet result := λ A a, Ok a.
Global Instance result_bind : MBind result := λ A B k r,
match r with
| Ok a => k a
| Raise e => Raise e
end.

Definition is_ok {A} (r : result A) : bool :=
match r with Ok _ => true | Raise _ => false end.

(** ** Python strings *)

Module Str.

Definition LF : ascii := "010"%char.
Definition nl : string := String LF "".

(** [chr(n)] for a code point of the modelled range. *)
Definition chr (n : nat) : ascii := ascii_of_nat n.

(** [x in s] for a one-character [x]. *)
Fixpoint mem (c : ascii) (s : string) : bool :=
  match s with
  | "" => false
  | String a s' => if decide (a = c) then true else mem c s'
  end.

(** [s.replace(c, by)] for a one-character pattern. *)
Fixpoint replace (c : ascii) (by_ : string) (s : string) : string :=
  match s with
  | "" => ""
  | String a s' =>
      if decide (a = c) then by_ +:+ replace c by_ s'
      else String a (replace c by_ s')
  end.

(** [needle in hay]: substring test. *)
Fixpoint contains (needle hay : string) : bool :=
  String.prefix needle hay ||
  match hay with
  | "" => false
  | String _ hay' => contains needle hay'
  end.

(** [str.lower] on the Latin-1 range: A-Z and the accented capitals
    U+00C0-U+00DE (without the multiplication sign U+00D7) move up by
    32; every other character is its own lower case. *)
Definition lower_char (c : ascii) : ascii :=
  let n := nat_of_ascii c in
  if (65 <=? n) && (n <=? 90) then ascii_of_nat (n + 32)
  else if (192 <=? n) && (n <=? 222) && negb (n =? 215) then ascii_of_nat (n + 32)
  else c.

Fixpoint lower (s : string) : string :=
  match s with
  | "" => ""
  | String a s' => String (lower_char a) (lower s')
  end.

(** The characters [str.strip()] removes: those for which
    [str.isspace] holds. *)
Definition is_space (c : ascii) : bool :=
  let n := nat_of_ascii c in
  ((9 <=? n) && (n <=? 13)) || ((28 <=? n) && (n <=? 32))
  || (n =? 133) || (n =? 160).

Fixpoint lstrip (s : string) : string :=
  match s with
  | "" => ""
  | String a s' => if is_space a then lstrip s' else s
  end.

(** Strips the trailing white space: a character is kept when
    something after it is kept, or when it is not white space. *)
Fixpoint rstrip (s : string) : string :=
  match s with
  | "" => ""
  | String a s' =>
      match rstrip s' with
      | "" => if is_space a then "" else String a ""
      | r => String a r
      end
  end.

Definition strip (s : string) : string := rstrip (lstrip s).

(** [re.split(r'[.!?]', s)]-style splitting on the characters that
    satisfy [delim]: the pieces between delimiters, empty ones kept. *)
Fixpoint split (delim : ascii → bool) (s : string) : list string :=
  match s with
  | "" => [""]
  | String a s' =>
      if delim a then "" :: split delim s'
      else match split delim s' with
           | [] => [String a ""]
           | piece :: pieces => String a piece :: pieces
           end
  end.

End Str.

(** ** Questions as the store hands them to the export and duplicate
  handlers

  [fs.get_questions_by_uid_and_topic] returns a list of dictionaries
  with the keys ['text'], ['choices'] and ['correct_choice']. *)

Record Question : Type := mkQuestion {
  text : string;
  choices : list string;
  correct_choice : string
}.

(** ** Aiken export: [export_questions] *)

Module Aiken.

(** [l.index(x)]: the first position of [x], [None] where Python
    raises [ValueError]. *)
Fixpoint index (x : string) (l : list string) : option nat :=
  match l with
  | [] => None
  | y :: l' => if decide (y = x) then Some 0 else S <$> index x l'
  end.

(** The position letter [chr(65 + idx)]. *)
Definition letter (idx : nat) : string := String (Str.chr (65 + idx)) "".

(** The inner loop, [for idx, answer in enumerate(question['choices'])],
    from position [idx] on, appending to the content built so far. *)
Fixpoint export_choices (idx : nat) (answers : list string)
    (aiken_format_content : string) : string :=
  match answers with
  | [] => aiken_format_content
  | answer :: rest =>
      export_choices (S idx) rest
        (aiken_format_content +:+ (letter idx +:+ ". " +:+ answer +:+ Str.nl))
  end.

(** One turn of the outer loop. *)
Definition export_question (question : Question)
    (aiken_format_content : string) : result string :=
  let content := aiken_format_content +:+ (text question +:+ Str.nl) in
  let content := export_choices 0 (choices question) content in
  match index (correct_choice question) (choices question) with
  | None => Raise (ValueError "is not in list")
  | Some correct_choice_index =>
      let correct_choice := letter correct_choice_index in
      Ok (content +:+ ("ANSWER: " +:+ correct_choice +:+ Str.nl +:+ Str.nl))
  end.

Fixpoint export_loop (questions : list Question)
    (aiken_format_content : string) : result string :=
  match questions with
  | [] => Ok aiken_format_content
  | question :: rest =>
      content ← export_question question aiken_format_content;
      export_loop rest content
  end.

(** The text [export_questions] writes to the download file, from the
    questions the store returned. *)
Definition aiken_format_content (questions : list Question) : result string :=
  export_loop questions "".

(** The handler: a [ValueError] of the store becomes a 400. *)
Definition export_questions (fetched : result (list Question)) : result string :=
  match fetched with
  | Ok questions => aiken_format_content questions
  | Raise (ValueError msg) => Raise (HTTPException 400 msg)
  | Raise e => Raise e
  end.

(** *** The format in the words of its description *)




(** *** Reading a block back *)








(** A sample question: the correct choice is listed twice. *)
Definition sample_question : Question :=
  mkQuestion "Which planet is known as the red planet?"
    ["Venus"; "Mars"; "Jupiter"; "Mars"] "Mars".

End Aiken.

(** ** Duplicate detection: [get_duplicate_questions_answers] *)

Module Duplicates.

(** The dictionaries appended to [duplicate_questions]. *)
Record DuplicateQuestion : Type := mkDuplicateQuestion {
  dq_question : string;
  dq_position1 : nat;
  dq_position2 : nat
}.

(** The dictionaries appended to [duplicate_answers]. *)
Record DuplicateAnswer : Type := mkDuplicateAnswer {
  da_answer : string;
  da_position1 : nat;
  da_position2 : nat
}.

Global Instance DuplicateQuestion_eq_dec : EqDecision DuplicateQuestion.
Proof. solve_decision. Defined.
Global Instance DuplicateAnswer_eq_dec : EqDecision DuplicateAnswer.
Proof. solve_decision. Defined.

(** [for ans1 in q1['choices']: if ans1 in q2['choices']: append]. *)
Fixpoint answers_loop (idx1 idx2 : nat) (choices1 : list string) (q2 : Question)
    (duplicate_answers : list DuplicateAnswer) : list DuplicateAnswer :=
  match choices1 with
  | [] => duplicate_answers
  | ans1 :: rest =>
      answers_loop idx1 idx2 rest q2
        (if bool_decide (ans1 ∈ choices q2)
         then duplicate_answers ++ [mkDuplicateAnswer ans1 idx1 idx2]
         else duplicate_answers)
  end.

(** [for idx2, q2 in enumerate(questions[idx1 + 1:], start=idx1 + 1)]:
    [later] is what is left of the slice, [idx2] the position of its
    head. The state is the pair of result lists. *)
Fixpoint inner_loop (idx1 : nat) (q1 : Question) (idx2 : nat)
    (later : list Question)
    (acc : list DuplicateQuestion * list DuplicateAnswer)
    : list DuplicateQuestion * list DuplicateAnswer :=
  match later with
  | [] => acc
  | q2 :: later' =>
      let duplicate_questions :=
        if bool_decide (text q1 = text q2)
        then acc.1 ++ [mkDuplicateQuestion (text q1) idx1 idx2]
        else acc.1 in
      let duplicate_answers := answers_loop idx1 idx2 (choices q1) q2 acc.2 in
      inner_loop idx1 q1 (S idx2) later' (duplicate_questions, duplicate_answers)
  end.

(** [for idx1, q1 in enumerate(questions)]: [from] is [questions[idx1:]],
    so that its tail is the slice [questions[idx1 + 1:]]. *)
Fixpoint outer_loop (idx1 : nat) (from : list Question)
    (acc : list DuplicateQuestion * list DuplicateAnswer)
    : list DuplicateQuestion * list DuplicateAnswer :=
  match from with
  | [] => acc
  | q1 :: later => outer_loop (S idx1) later (inner_loop idx1 q1 (S idx1) later acc)
  end.

(** The pair ([duplicate_questions], [duplicate_answers]) the handler
    returns for the questions fetched from the store. *)
Definition get_duplicate_questions_answers (questions : list Question)
    : list DuplicateQuestion * list DuplicateAnswer :=
  outer_loop 0 questions ([], []).

(** *** Vocabulary of the description *)

(** The traversal of all pairs of positions [i < j] in the order of the
    two loops, for what a pair contributes ([emit]): one row per first
    position, the rows one after the other. *)
Fixpoint row {E} (emit : nat → Question → nat → Question → list E)
    (i : nat) (qi : Question) (j : nat) (later : list Question) : list E :=
  match later with
  | [] => []
  | qj :: later' => emit i qi j qj ++ row emit i qi (S j) later'
  end.

Fixpoint triangle {E} (emit : nat → Question → nat → Question → list E)
    (i : nat) (from : list Question) : list E :=
  match from with
  | [] => []
  | qi :: later => row emit i qi (S i) later ++ triangle emit (S i) later
  end.

(** What one pair contributes to each result list. *)
Definition emit_question (i : nat) (qi : Question) (j : nat) (qj : Question)
    : list DuplicateQuestion :=
  if decide (text qi = text qj) then [mkDuplicateQuestion (text qi) i j] else [].

Definition emit_answers (i : nat) (qi : Question) (j : nat) (qj : Question)
    : list DuplicateAnswer :=
  (λ a, mkDuplicateAnswer a i j) <$> filter (.∈ choices qj) (choices qi).

(** The entries reported for the pair of positions ([i], [j]). *)
Definition questions_at (i j : nat) (l : list DuplicateQuestion)
    : list DuplicateQuestion :=
  filter (λ e, dq_position1 e = i ∧ dq_position2 e = j) l.

Definition answers_at (i j : nat) (l : list DuplicateAnswer)
    : list DuplicateAnswer :=
  filter (λ e, da_position1 e = i ∧ da_position2 e = j) l.

(** The number of choice strings two choice arrays share: the strings
    that occur in both. *)
Definition shared_choice_strings (choices1 choices2 : list string) : nat :=
  size (list_to_set choices1 ∩ list_to_set choices2 : gset string).

(** No choice string of [q] occurs among the choices of [q']. *)
Definition disjoint_choices (q q' : Question) : Prop :=
  ∀ a, a ∈ choices q → a ∉ choices q'.

(** Two questions of which the first repeats a choice the second has. *)
Definition repeated_choice_questions : list Question :=
  [ mkQuestion "What is the capital of France?"
      ["Paris"; "Paris"; "Lyon"; "Nice"] "Paris";
    mkQuestion "Which city hosts the Louvre?"
      ["Paris"; "Rome"; "Madrid"; "Vienna"] "Paris" ].

(** Identical stems at positions 0 and 2, no choice in common. *)
Definition twin_stem_questions : list Question :=
  [ mkQuestion "What colour is the sky?" ["blue"; "green"; "red"; "pink"] "blue";
    mkQuestion "At what temperature does water boil?"
      ["100"; "90"; "80"; "70"] "100";
    mkQuestion "What colour is the sky?" ["azure"; "grey"; "black"; "white"] "azure" ].

End Duplicates.

(** ** Documents of the store

    A question lives at [users/<uid>/<topic>/<question id>]. What
    [to_dict()] returns for it is a dictionary with string keys whose
    values are of several kinds. *)

(** An entry of the list under ['rating']. *)
Record Rating : Type := mkRating {
  r_uid : string;
  r_rate : Z
}.

Global Instance Rating_eq_dec : EqDecision Rating.
Proof. solve_decision. Defined.

Inductive value : Type :=
  | VStr (s : string)
  | VNum (x : Qc)
  | VMap (m : gmap string string)
  | VRatings (l : list Rating).

(** Python truth value of a stored value. *)
Definition truthy (v : value) : bool :=
  match v with
  | VStr s => negb (bool_decide (s = ""))
  | VNum x => negb (bool_decide (x = 0%Qc))
  | VMap m => negb (bool_decide (m = ∅))
  | VRatings l => negb (bool_decide (l = []))
  end.

(** [data[key]]. *)
Definition getitem (data : gmap string value) (key : string) : result value :=
  match data !! key with
  | Some v => Ok v
  | None => Raise (KeyError key)
  end.

(** ** Rating: [rate_questions] *)

Module Rate.

(** The loop over [ratings]: the first entry of the user gets the new
    rate and the loop stops. Returns the list and [uid_exists]. *)
Fixpoint rate_loop (ratings : list Rating) (uid : string) (rate : Z)
    : list Rating * bool :=
  match ratings with
  | [] => ([], false)
  | rating :: rest =>
      if decide (r_uid rating = uid)
      then (mkRating (r_uid rating) rate :: rest, true)
      else let '(rest', uid_exists) := rate_loop rest uid rate in
           (rating :: rest', uid_exists)
  end.

Definition update_ratings (ratings : list Rating) (new : Rating) : list Rating :=
  let '(ratings, uid_exists) := rate_loop ratings (r_uid new) (r_rate new) in
  if uid_exists then ratings
  else ratings ++ [mkRating (r_uid new) (r_rate new)].

(** [sum(r['rate'] for r in ratings)]. *)
Definition sum_rates (ratings : list Rating) : Z :=
  foldl (λ acc r, (acc + r_rate r)%Z) 0%Z ratings.

(** [sum(...) / len(ratings) if ratings else 0]; the quotient is kept as
    the exact rational that Python's division rounds to a float. *)
Definition average_rating (ratings : list Rating) : Qc :=
  match ratings with
  | [] => 0%Qc
  | _ => (Qc_of_Z (sum_rates ratings) / Qc_of_Z (Z.of_nat (length ratings)))%Qc
  end.

(** The handler, on the state of the referenced document ([None]: the
    document does not exist). Returns the response data and the state
    of the document afterwards. *)
Definition rate_questions (rating : Rating) (doc_ref : option (gmap string value))
    : result (gmap string value) * option (gmap string value) :=
  match doc_ref with
  | None => (Raise (HTTPException 400 "Question not found"), doc_ref)
  | Some data =>
      match default (VRatings []) (data !! "rating") with
      | VRatings ratings =>
          let ratings := update_ratings ratings rating in
          let data := <["rating" := VRatings ratings]> data in
          let data := <["average_rating" := VNum (average_rating ratings)]> data in
          (Ok data, Some data)
      | _ => (Raise (HTTPException 500 "Internal Server Error"), doc_ref)
      end
  end.

(** *** Vocabulary of the description *)




(** A stored question that two users have rated. *)
Definition rated_document : gmap string value :=
  {[ "question" := VStr "What colour is the sky?";
     "crct_ans" := VStr "blue";
     "rating" := VRatings [mkRating "ann" 4; mkRating "bob" 2] ]}.

End Rate.

(** ** Keyword search: [search_questions] *)

Module Search.

(** The store as its enumeration shows it: [users.stream()] yields the
    user documents, [document(user_id).collections()] the collections of
    a user, [collection.stream()] the documents of a collection, each in
    the order of the store. *)
Record Doc : Type := mkDoc {
  doc_id : string;
  doc_data : gmap string value
}.

Record Collection : Type := mkCollection {
  collection_id : string;
  documents : list Doc
}.

Record User : Type := mkUser {
  user_id : string;
  collections : list Collection
}.

(** The dictionary appended to [matching_questions]; ['rating'] is an
    optional key. *)
Record QuestionData : Type := mkQuestionData {
  qd_user_id : string;
  qd_collection_id : string;
  qd_id : string;
  qd_text : string;
  qd_choices : list string;
  qd_correct_choice : value;
  qd_rating : option value
}.

(** [v.lower()]: only strings have the method. *)
Definition lower_of (v : value) : result string :=
  match v with
  | VStr s => Ok (Str.lower s)
  | _ => Raise AttributeError
  end.

Definition str_of (v : value) : result string :=
  match v with
  | VStr s => Ok s
  | _ => Raise AttributeError
  end.

(** [v[key]] for a string key: only a mapping can be subscripted so. *)
Definition subscript (v : value) (key : string) : result string :=
  match v with
  | VMap m =>
      match m !! key with
      | Some s => Ok s
      | None => Raise (KeyError key)
      end
  | _ => Raise TypeError
  end.

(** [[data['all_ans'][str(i)] for i in range(4)]], from the positions
    [range] still has to give. *)
Fixpoint all_choices (data : gmap string value) (range : list nat)
    : result (list string) :=
  match range with
  | [] => Ok []
  | i :: rest =>
      all_ans ← getitem data "all_ans";
      choice ← subscript all_ans (pretty i);
      choices ← all_choices data rest;
      Ok (choice :: choices)
  end.

(** ['rating' in data and data['rating']]: the value to report, if any. *)
Definition reported_rating (data : gmap string value) : option value :=
  match data !! "rating" with
  | Some v => if truthy v then Some v else None
  | None => None
  end.

(** The body of the innermost loop for one document: the list of
    matches with what this document adds. *)
Definition visit_document (keyword : string) (user_id collection_id : string)
    (doc : Doc) (matching_questions : list QuestionData)
    : result (list QuestionData) :=
  let data := doc_data doc in
  question ← getitem data "question";
  lowered ← lower_of question;
  if Str.contains (Str.lower keyword) lowered then
    text ← str_of question;
    choices ← all_choices data (seq 0 4);
    correct_choice ← getitem data "crct_ans";
    let question_data :=
      mkQuestionData user_id collection_id (doc_id doc) text choices
        correct_choice (reported_rating data) in
    Ok (matching_questions ++ [question_data])
  else Ok matching_questions.

Fixpoint documents_loop (keyword user_id collection_id : string)
    (docs : list Doc) (matching_questions : list QuestionData)
    : result (list QuestionData) :=
  match docs with
  | [] => Ok matching_questions
  | doc :: rest =>
      matching_questions ←
        visit_document keyword user_id collection_id doc matching_questions;
      documents_loop keyword user_id collection_id rest matching_questions
  end.

Fixpoint collections_loop (keyword user_id : string)
    (question_collections : list Collection)
    (matching_questions : list QuestionData) : result (list QuestionData) :=
  match question_collections with
  | [] => Ok matching_questions
  | collection :: rest =>
      matching_questions ←
        documents_loop keyword user_id (collection_id collection)
          (documents collection) matching_questions;
      collections_loop keyword user_id rest matching_questions
  end.

Fixpoint users_loop (keyword : string) (users : list User)
    (matching_questions : list QuestionData) : result (list QuestionData) :=
  match users with
  | [] => Ok matching_questions
  | user :: rest =>
      matching_questions ←
        collections_loop keyword (user_id user) (collections user)
          matching_questions;
      users_loop keyword rest matching_questions
  end.

(** The handler: the data of the 200 response, or the 500 that the
    [except Exception] clause makes of any exception. *)
Definition search_questions (keyword : string) (users : list User)
    : result (list QuestionData) :=
  match users_loop keyword users [] with
  | Ok matching_questions => Ok matching_questions
  | Raise _ => Raise (HTTPException 500 "Internal Server Error")
  end.

(** *** Vocabulary of the description *)

(** The keyword occurs in the text under case-insensitive comparison:
    some stretch of the text is the keyword up to the case of letters. *)
Definition occurs_ignoring_case (keyword text : string) : Prop :=
  ∃ before stretch after,
    text = before +:+ stretch +:+ after ∧
    Str.lower stretch = Str.lower keyword.

Global Instance value_eq_dec : EqDecision value.
Proof. solve_decision. Defined.

(** The schema of a stored question: a ['question'] string, a
    ['crct_ans'] field and an ['all_ans'] mapping with the keys ["0"] to
    ["3"]. *)
Definition question_of (data : gmap string value)
    : option (string * list string * value) :=
  match data !! "question", data !! "all_ans", data !! "crct_ans" with
  | Some (VStr q), Some (VMap m), Some c =>
      match m !! "0", m !! "1", m !! "2", m !! "3" with
      | Some a0, Some a1, Some a2, Some a3 => Some (q, [a0; a1; a2; a3], c)
      | _, _, _, _ => None
      end
  | _, _, _ => None
  end.

(** The schema without the types of the fields. *)
Definition has_question_fields (data : gmap string value) : Prop :=
  is_Some (data !! "question") ∧ is_Some (data !! "crct_ans") ∧
  ∃ m, data !! "all_ans" = Some (VMap m) ∧
       ∀ i, i < 4 → is_Some (m !! pretty i).

(** Every document reachable from the store, with its owner and topic,
    in the order of the enumeration. *)
Definition reachable_in (u : string) (cs : list Collection)
    : list (string * string * Doc) :=
  collection ← cs; doc ← documents collection; [(u, collection_id collection, doc)].

Definition reachable (users : list User) : list (string * string * Doc) :=
  user ← users; reachable_in (user_id user) (collections user).

(** The match a reachable document gives, when its text contains the
    keyword. *)
Definition match_of (keyword : string) (entry : string * string * Doc)
    : list QuestionData :=
  let '(user_id, collection_id, doc) := entry in
  match question_of (doc_data doc) with
  | Some (text, choices, correct_choice) =>
      if Str.contains (Str.lower keyword) (Str.lower text)
      then [mkQuestionData user_id collection_id (doc_id doc) text choices
              correct_choice (reported_rating (doc_data doc))]
      else []
  | None => []
  end.

(** A store of two users. *)
Definition sky_document : gmap string value :=
  {[ "question" := VStr "What colour is the Sky?";
     "crct_ans" := VStr "blue";
     "all_ans" := VMap {[ "0" := "blue"; "1" := "green"; "2" := "red"; "3" := "pink" ]};
     "rating" := VRatings [mkRating "ann" 4] ]}.

Definition water_document : gmap string value :=
  {[ "question" := VStr "At what temperature does water boil?";
     "crct_ans" := VStr "100";
     "all_ans" := VMap {[ "0" := "100"; "1" := "90"; "2" := "80"; "3" := "70" ]};
     "rating" := VRatings [] ]}.

Definition sample_store : list User :=
  [ mkUser "ann" [ mkCollection "physics" [ mkDoc "q1" sky_document;
                                            mkDoc "q2" water_document ] ];
    mkUser "bob" [ mkCollection "weather" [ mkDoc "q9" sky_document ] ] ].

(** The same store with a document that has no ['crct_ans'] and only
    three answers, between the well-formed ones. *)
Definition malformed_document : gmap string value :=
  {[ "question" := VStr "Which sky is this?";
     "all_ans" := VMap {[ "0" := "ours"; "1" := "theirs"; "2" := "none" ]} ]}.

Definition broken_store : list User :=
  [ mkUser "ann" [ mkCollection "physics" [ mkDoc "q1" sky_document;
                                            mkDoc "q3" malformed_document;
                                            mkDoc "q2" water_document ] ];
    mkUser "bob" [ mkCollection "weather" [ mkDoc "q9" sky_document ] ] ].

End Search.

(** ** Moodle export: [create_moodle_xml] *)

Module Moodle.

(** An [xml.etree.ElementTree.Element]: tag, attributes in insertion
    order, text, children. No element of this program has a tail. *)
#[warnings="-register-all"]
Inductive Element : Type :=
  | Elem (tag : string) (attrib : list (string * string))
         (text : option string) (children : list Element).

(** [ET.SubElement(parent, ...)], with the child as it stands when the
    loop turn ends: the child goes last among the children. *)
Definition sub_element (parent child : Element) : Element :=
  match parent with
  | Elem tag attrib text children => Elem tag attrib text (children ++ [child])
  end.

(** A [<text>] child holding [s]. *)
Definition text_el (s : string) : Element := Elem "text" [] (Some s) [].

(** The body of the loop over the choices of a question. *)
Definition answer_el (question : Question) (answer : string) : Element :=
  let fraction :=
    if decide (answer = correct_choice question) then "100" else "0" in
  let answer_el := Elem "answer" [("fraction", fraction)] None [] in
  let answer_el := sub_element answer_el (text_el answer) in
  let feedback_el := Elem "feedback" [] None [] in
  let feedback_el :=
    sub_element feedback_el
      (text_el (if decide (answer = correct_choice question)
                then "Correct!" else "Incorrect.")) in
  sub_element answer_el feedback_el.

Fixpoint answers_loop (question : Question) (answers : list string)
    (question_el : Element) : Element :=
  match answers with
  | [] => question_el
  | answer :: rest =>
      answers_loop question rest (sub_element question_el (answer_el question answer))
  end.

(** The body of the loop over the questions. *)
Definition question_el (question : Question) : Element :=
  let question_el := Elem "question" [("type", "multichoice")] None [] in
  let name_el := sub_element (Elem "name" [] None []) (text_el (text question)) in
  let question_el := sub_element question_el name_el in
  let questiontext_el :=
    sub_element (Elem "questiontext" [("format", "html")] None [])
      (text_el ("<![CDATA[" +:+ text question +:+ "]]>")) in
  let question_el := sub_element question_el questiontext_el in
  answers_loop question (choices question) question_el.

Fixpoint questions_loop (questions : list Question) (quiz : Element) : Element :=
  match questions with
  | [] => quiz
  | question :: rest =>
      questions_loop rest (sub_element quiz (question_el question))
  end.

Definition quiz_tree (questions : list Question) : Element :=
  questions_loop questions (Elem "quiz" [] None []).

(** *** [ET.tostring(quiz, encoding='unicode')]

    The serializer of the standard library, with its two escape
    functions. *)

Definition dquote : ascii := "034"%char.
Definition CR : ascii := "013"%char.
Definition TAB : ascii := "009"%char.

Definition escape_cdata (text : string) : string :=
  let text := Str.replace "&" "&amp;" text in
  let text := Str.replace "<" "&lt;" text in
  let text := Str.replace ">" "&gt;" text in
  text.

Definition escape_attrib (text : string) : string :=
  let text := Str.replace "&" "&amp;" text in
  let text := Str.replace "<" "&lt;" text in
  let text := Str.replace ">" "&gt;" text in
  let text := Str.replace dquote "&quot;" text in
  let text := Str.replace CR "&#13;" text in
  let text := Str.replace Str.LF "&#10;" text in
  let text := Str.replace TAB "&#09;" text in
  text.

Definition serialize_attribute (item : string * string) : string :=
  " " +:+ item.1 +:+ "=" +:+ String dquote (escape_attrib item.2)
  +:+ String dquote "".

Definition serialize_attributes (items : list (string * string)) : string :=
  String.concat "" (serialize_attribute <$> items).

(** Python truth of [elem.text]: [None] and the empty string are false. *)
Definition text_of (text : option string) : string := default "" text.

Fixpoint serialize (elem : Element) : string :=
  match elem with
  | Elem tag attrib text children =>
      "<" +:+ tag +:+ serialize_attributes attrib +:+
      (if bool_decide (text_of text = "") && bool_decide (children = [])
       then " />"
       else ">" +:+ escape_cdata (text_of text)
            +:+ String.concat "" (serialize <$> children)
            +:+ "</" +:+ tag +:+ ">")
  end.

Definition create_moodle_xml (questions : list Question) : string :=
  serialize (quiz_tree questions).

(** *** The document in the words of its description *)

Definition fraction_of (question : Question) (answer : string) : string :=
  if decide (answer = correct_choice question) then "100" else "0".

Definition feedback_of (question : Question) (answer : string) : string :=
  if decide (answer = correct_choice question) then "Correct!" else "Incorrect.".

Definition answer_spec (question : Question) (answer : string) : Element :=
  Elem "answer" [("fraction", fraction_of question answer)] None
    [ text_el answer;
      Elem "feedback" [] None [ text_el (feedback_of question answer) ] ].

Definition question_spec (question : Question) : Element :=
  Elem "question" [("type", "multichoice")] None
    ([ Elem "name" [] None [ text_el (text question) ];
       Elem "questiontext" [("format", "html")] None
         [ text_el ("<![CDATA[" +:+ text question +:+ "]]>") ] ]
     ++ (answer_spec question <$> choices question)).

Definition quiz_spec (questions : list Question) : Element :=
  Elem "quiz" [] None (question_spec <$> questions).

(** *** Well-formed markup

    The grammar of XML 1.0 for documents made of elements, attributes,
    character data and references. *)

(** Production [2], Char, on the modelled range: tab, line feed,
    carriage return and everything from the blank on. *)
Definition xml_char (c : ascii) : bool :=
  let n := nat_of_ascii c in
  (n =? 9) || (n =? 10) || (n =? 13) || (32 <=? n).

Fixpoint all_chars (p : ascii → bool) (s : string) : bool :=
  match s with
  | "" => true
  | String c s' => p c && all_chars p s'
  end.

(** Production [5], Name, on ASCII letters, digits and the marks. *)
Definition name_start_char (c : ascii) : bool :=
  let n := nat_of_ascii c in
  ((65 <=? n) && (n <=? 90)) || ((97 <=? n) && (n <=? 122))
  || (n =? 95) || (n =? 58).

Definition name_char (c : ascii) : bool :=
  let n := nat_of_ascii c in
  name_start_char c || ((48 <=? n) && (n <=? 57)) || (n =? 45) || (n =? 46).

Definition is_name (s : string) : bool :=
  match s with
  | "" => false
  | String c s' => name_start_char c && all_chars name_char s'
  end.

(** Production [14], CharData: no markup character. The sequence that
    closes a CDATA section is kept out by keeping every [>] out, which
    the serializer never writes bare. *)
Definition char_data_char (c : ascii) : bool :=
  xml_char c && negb (bool_decide (c = "<"%char))
  && negb (bool_decide (c = "&"%char)) && negb (bool_decide (c = ">"%char)).

Definition char_data (s : string) : bool := all_chars char_data_char s.

(** Production [67], Reference: the predefined entities and the
    character references of the three white space characters. *)
Definition references : list string :=
  ["&amp;"; "&lt;"; "&gt;"; "&quot;"; "&apos;"; "&#13;"; "&#10;"; "&#09;"].

(** Production [10], AttValue between double quotes: characters other
    than [<], [&] and the quote, and references. *)
Definition att_value_char (c : ascii) : bool :=
  xml_char c && negb (bool_decide (c = "<"%char))
  && negb (bool_decide (c = "&"%char)) && negb (bool_decide (c = dquote)).

Inductive att_value : string → Prop :=
  | att_value_nil : att_value ""
  | att_value_char_cons c s :
      att_value_char c = true → att_value s → att_value (String c s)
  | att_value_reference r s :
      r ∈ references → att_value s → att_value (r +:+ s).

(** Productions [40], [41] and the uniqueness constraint: the text of
    the attributes of a tag, for attributes with distinct names. *)
Inductive attributes : list string → string → Prop :=
  | attributes_nil : attributes [] ""
  | attributes_cons name v names rest :
      is_name name = true → att_value v → name ∉ names →
      attributes names rest →
      attributes (name :: names)
        (" " +:+ name +:+ "=" +:+ String dquote v +:+ String dquote rest).

Inductive syntax : Type := Content | AnElement.

(** Productions [39], [43], [44] and the constraint that the end tag
    repeats the name of the start tag. *)
Inductive derives : syntax → string → Prop :=
  | content_char_data s :
      char_data s = true → derives Content s
  | content_reference s r rest :
      char_data s = true → r ∈ references → derives Content rest →
      derives Content (s +:+ r +:+ rest)
  | content_element s e rest :
      char_data s = true → derives AnElement e → derives Content rest →
      derives Content (s +:+ e +:+ rest)
  | element_empty name names attrs :
      is_name name = true → attributes names attrs →
      derives AnElement ("<" +:+ name +:+ attrs +:+ " />")
  | element_tags name names attrs body :
      is_name name = true → attributes names attrs → derives Content body →
      derives AnElement
        ("<" +:+ name +:+ attrs +:+ ">" +:+ body +:+ "</" +:+ name +:+ ">").

(** Production [1] without prolog: a document is its root element. *)
Definition well_formed (document : string) : Prop := derives AnElement document.

(** What the escapes make of one character. *)
Definition escape_cdata_char (c : ascii) : string :=
  if decide (c = "&"%char) then "&amp;"
  else if decide (c = "<"%char) then "&lt;"
  else if decide (c = ">"%char) then "&gt;"
  else String c "".

Definition escape_attrib_char (c : ascii) : string :=
  if decide (c = "&"%char) then "&amp;"
  else if decide (c = "<"%char) then "&lt;"
  else if decide (c = ">"%char) then "&gt;"
  else if decide (c = dquote) then "&quot;"
  else if decide (c = CR) then "&#13;"
  else if decide (c = Str.LF) then "&#10;"
  else if decide (c = TAB) then "&#09;"
  else String c "".

(** A tree the serializer turns into well-formed markup: names for tags
    and attributes, no attribute twice in a tag, and only characters XML
    allows in texts and attribute values. *)
Definition attrib_ok (attrib : list (string * string)) : bool :=
  forallb (λ item, is_name item.1 && all_chars xml_char item.2) attrib
  && bool_decide (NoDup attrib.*1).

Fixpoint tree_ok (elem : Element) : bool :=
  match elem with
  | Elem tag attrib text children =>
      is_name tag && attrib_ok attrib && all_chars xml_char (text_of text)
      && forallb tree_ok children
  end.

(** The stem and the choices of a question hold only characters XML
    allows. *)
Definition xml_text (question : Question) : bool :=
  all_chars xml_char (text question)
  && forallb (all_chars xml_char) (choices question).

(** A question whose stem holds a form feed, as text copied from a
    paginated document does. *)
Definition form_feed_question : Question :=
  mkQuestion (String "012"%char "Which layer absorbs ultraviolet light?")
    ["ozone"; "argon"; "neon"; "radon"] "ozone".

End Moodle.

(** ** The generation pipeline: [process_request] and [get_questions] *)

Module Pipeline.

(** [ModelInput], the request body. *)
Record ModelInput : Type := mkModelInput {
  context : string;
  uid : string;
  name : string
}.

(** The calls the pipeline makes on the store ([fs]). *)
Inductive store_call : Type :=
  | UpdateGeneratedStatus (uid name : string) (status : bool)
  | SendResultsToFs (uid name : string) (questions : list Question).

Global Instance Question_eq_dec : EqDecision Question.
Proof. solve_decision. Defined.
Global Instance store_call_eq_dec : EqDecision store_call.
Proof. solve_decision. Defined.

(** The history of the store: every call attempted on it, in order, with
    its outcome ([true]: the store carried it out). What the store holds
    is what the successful calls wrote. *)
Definition history : Type := list (store_call * bool).

(** Computations that call the store and may raise. The history is
    kept when an exception is raised: what was written stays written. *)
Definition io (A : Type) : Type := history → result A * history.

Global Instance io_ret : MRet io := λ A a h, (Ok a, h).
Global Instance io_bind : MBind io := λ A B k m h,
  match m h with
  | (Ok a, h') => k a h'
  | (Raise e, h') => (Raise e, h')
  end.

(** A computation that does not touch the store. *)
Definition lift {A} (r : result A) : io A := λ h, (r, h).

(** The value of [generationInProgress] of a topic: what the last
    successful update wrote, false before any. *)
Definition generation_in_progress (u topic : string) (h : history) : bool :=
  foldl (λ flag c,
           match c with
           | (UpdateGeneratedStatus u' topic' status, true) =>
               if bool_decide (u' = u ∧ topic' = topic) then status else flag
           | _ => flag
           end) false h.

(** The question sets the store was made to persist. *)
Definition persisted (h : history) : list (string * string * list Question) :=
  omap (λ c, match c with
             | (SendResultsToFs u topic qs, true) => Some (u, topic, qs)
             | _ => None
             end) h.

(** An attempt, successful or not, to set the flag of a topic to [status]. *)
Definition attempted (u topic : string) (status : bool) (h : history) : Prop :=
  ∃ ok, (UpdateGeneratedStatus u topic status, ok) ∈ h.

(** Modelled from the spec: [FirebaseService.send_results_to_fs] is not
    among the sources. Step 7 of the pipeline: a question record per
    generated stem, with its choices in the order of the distractor
    generator and its correct answer. *)
Fixpoint assemble (questions crct_ans : list string) (all_ans : list (list string))
    : list Question :=
  match questions, crct_ans, all_ans with
  | q :: questions', c :: crct_ans', a :: all_ans' =>
      mkQuestion q a c :: assemble questions' crct_ans' all_ans'
  | _, _, _ => []
  end.

Section collaborators.

(** [GoogleTranslator(source='vi', target='en').translate]. *)
Variable translate : string → result string.
(** The model chain of [src.inferencehandler] and the model classes. *)
Variable get_all_summary : string → result (list string * list string).
Variable get_keywords : list string → list string → result (list string).
Variable get_output : list string → result (list string * list (list string)).
Variable get_all_questions : list string → list string → result (list string).
(** Whether the store carries out a call, given its history. *)
Variable store_up : store_call → history → bool.

Definition vietnamese_to_english (text : string) : result string :=
  translate text.

Definition generate_que_n_ans (context : string)
    : result (list string * list string * list (list string)) :=
  '(summary, splitted_text) ← get_all_summary context;
  filtered_kws ← get_keywords splitted_text summary;
  '(crct_ans, all_answers) ← get_output filtered_kws;
  questions ← get_all_questions summary crct_ans;
  Ok (questions, crct_ans, all_answers).

Definition store (call : store_call) : io unit := λ h,
  if store_up call h then (Ok (), h ++ [(call, true)])
  else (Raise (CollaboratorError "store"), h ++ [(call, false)]).

Definition update_generated_status (request : ModelInput) (status : bool)
    : io unit :=
  store (UpdateGeneratedStatus (uid request) (name request) status).

Definition send_results_to_fs (request : ModelInput)
    (questions crct_ans : list string) (all_ans : list (list string))
    : io (list Question) :=
  let results := assemble questions crct_ans all_ans in
  _ ← store (SendResultsToFs (uid request) (name request) results);
  mret results.

Definition process_request (request : ModelInput) : io (list Question) :=
  context ← lift (vietnamese_to_english (context request));
  name ← lift (vietnamese_to_english (name request));
  let request := mkModelInput context (uid request) name in
  _ ← update_generated_status request true;
  '(questions, crct_ans, all_ans) ← lift (generate_que_n_ans context);
  _ ← update_generated_status request false;
  results ← send_results_to_fs request questions crct_ans all_ans;
  mret results.

(** Whether the model chain produces its output for the request. *)
Definition generated (request : ModelInput) : bool :=
  match vietnamese_to_english (context request) with
  | Ok context => is_ok (generate_que_n_ans context)
  | Raise _ => false
  end.

(** [r'[.!?]']. *)
Definition sentence_delimiter (c : ascii) : bool :=
  bool_decide (c = "."%char) || bool_decide (c = "!"%char)
  || bool_decide (c = "?"%char).

(** [[sentence.strip() for sentence in sentences if sentence.strip()]]. *)
Fixpoint stripped_sentences (sentences : list string) : list string :=
  match sentences with
  | [] => []
  | sentence :: rest =>
      if bool_decide (Str.strip sentence = "") then stripped_sentences rest
      else Str.strip sentence :: stripped_sentences rest
  end.

Fixpoint sentences_loop (request : ModelInput) (sentences : list string)
    (results : list (list Question)) : io (list (list Question)) :=
  match sentences with
  | [] => mret results
  | sentence :: rest =>
      result ← process_request (mkModelInput sentence (uid request) (name request));
      sentences_loop request rest (results ++ [result])
  end.

(** The handler: the list under ['data'] of the response. *)
Definition get_questions (request : ModelInput) : io (list (list Question)) :=
  let sentences := Str.split sentence_delimiter (context request) in
  let sentences := stripped_sentences sentences in
  sentences_loop request sentences [].

(** The runs of [process_request] on the fragments in order, each from
    the history the one before left, with their outputs. *)
Inductive runs_in_order (request : ModelInput)
    : list string → history → list (list Question) → history → Prop :=
  | runs_nil h : runs_in_order request [] h [] h
  | runs_cons sentence rest h result h' results h'' :
      process_request (mkModelInput sentence (uid request) (name request)) h
        = (Ok result, h') →
      runs_in_order request rest h' results h'' →
      runs_in_order request (sentence :: rest) h (result :: results) h''.

End collaborators.

(** *** The response body as JSON *)

#[warnings="-register-all"]
Inductive json : Type :=
  | JStr (s : string)
  | JNum (n : Z)
  | JArr (items : list json)
  | JObj (fields : list (string * json)).

Definition json_of_question (q : Question) : json :=
  JObj [ ("text", JStr (text q));
         ("choices", JArr (JStr <$> choices q));
         ("correct_choice", JStr (correct_choice q)) ].

Definition json_of_question_set (qs : list Question) : json :=
  JArr (json_of_question <$> qs).

(** [{'status': 200, 'data': results}] of [get_questions]. *)
Definition split_response (results : list (list Question)) : json :=
  JObj [ ("status", JNum 200); ("data", JArr (json_of_question_set <$> results)) ].

(** The response the description words: the data is the concatenation
    of the question sets of the runs. *)
Definition concatenated_response (results : list (list Question)) : json :=
  JObj [ ("status", JNum 200); ("data", json_of_question_set (concat results)) ].

(** *** Sample collaborators *)

(** A translator that leaves the text as it is, and a model chain that
    asks one question about the passage. *)
Definition echo_translate (text : string) : result string := Ok text.

Definition toy_summary (context : string) : result (list string * list string) :=
  Ok ([context], [context]).
Definition toy_keywords (splitted summary : list string) : result (list string) :=
  Ok summary.
Definition toy_output (kws : list string)
    : result (list string * list (list string)) :=
  Ok (kws, (λ k, [k; "no"; "never"; "none"]) <$> kws).
Definition toy_questions (summary crct_ans : list string) : result (list string) :=
  Ok ((λ a, "True or false: " +:+ a +:+ "?") <$> crct_ans).

(** A summarizer that is down. *)
Definition failing_summary (context : string)
    : result (list string * list string) :=
  Raise (CollaboratorError "summarizer").

Definition store_always_up (call : store_call) (h : history) : bool := true.

Definition sky_request : ModelInput :=
  mkModelInput "The sky is blue. Water boils at 100 degrees." "u1" "facts".

End Pipeline.

(** ** The bearer gate: [JWTBearer] of [app/auth.py] *)

Module Auth.

(** [HTTPAuthorizationCredentials]: the two parts of the header. *)
Record Credentials : Type := mkCredentials {
  scheme : string;
  credentials : string
}.

(** What [jwt.decode(token, "your_jwt_secret", algorithms=["HS256"])]
    does with a token: it returns the payload or raises; every error of
    the library is an [InvalidTokenError], the expiry error a special
    case of it that the code catches first. *)
Inductive decode_outcome : Type :=
  | Decoded
  | ExpiredSignatureError
  | InvalidTokenError.

Section gate.

Variable jwt_decode : string → decode_outcome.

Definition verify_jwt (token : string) : result bool :=
  match jwt_decode token with
  | Decoded => Ok true
  | ExpiredSignatureError => Raise (HTTPException 403 "Token expired")
  | InvalidTokenError => Raise (HTTPException 403 "Invalid token")
  end.

(** [JWTBearer.__call__], on what [HTTPBearer.__call__] gave: an
    exception of its own, or the optional credentials. *)
Definition call (parent : result (option Credentials)) : result string :=
  creds ← parent;
  match creds with
  | Some c =>
      if negb (bool_decide (scheme c = "Bearer"))
      then Raise (HTTPException 403 "Invalid authentication scheme.")
      else
        verified ← verify_jwt (credentials c);
        if negb verified
        then Raise (HTTPException 403 "Invalid token or expired token.")
        else Ok (credentials c)
  | None => Raise (HTTPException 403 "Invalid authorization code.")
  end.

End gate.

(** A decoder that accepts one token and knows one expired token. *)
Definition sample_decode (token : string) : decode_outcome :=
  if bool_decide (token = "good.token") then Decoded
  else if bool_decide (token = "old.token") then ExpiredSignatureError
  else InvalidTokenError.

End Auth.

(** ** Comments: [comment_questions] *)

Module Comments.

(** An entry of the list under ['comments']. *)
Record Comment : Type := mkComment {
  c_uid : string;
  c_comment : string;
  c_time : string
}.

(** What a list field of a question document can hold. *)
Inductive entry : Type :=
  | ERating (r : Rating)
  | EComment (c : Comment).

(** The fields of a question document, with list fields of either kind
    of entry. *)
Inductive stored : Type :=
  | SStr (s : string)
  | SNum (x : Qc)
  | SMap (m : gmap string string)
  | SList (l : list entry).

(** The fields of the rating handler, among these. *)
Definition stored_of_value (v : value) : stored :=
  match v with
  | VStr s => SStr s
  | VNum x => SNum x
  | VMap m => SMap m
  | VRatings l => SList (ERating <$> l)
  end.

(** The handler, on the state of the referenced document; [now] is
    [datetime.now().isoformat()] as read when the comment is built.
    Only a list has [append]. Returns the response data and the state
    of the document afterwards. *)
Definition comment_questions (uid comment now : string)
    (doc_ref : option (gmap string stored))
    : result (gmap string stored) * option (gmap string stored) :=
  match doc_ref with
  | None => (Raise (HTTPException 400 "Question not found"), doc_ref)
  | Some data =>
      match default (SList []) (data !! "comments") with
      | SList comments =>
          let comments := comments ++ [EComment (mkComment uid comment now)] in
          let data := <["comments" := SList comments]> data in
          (Ok data, Some data)
      | _ => (Raise (HTTPException 500 "Internal Server Error"), doc_ref)
      end
  end.

(** The list a document holds under ['comments']; none counts as empty. *)
Definition stored_comments (data : gmap string stored) : option (list entry) :=
  match data !! "comments" with
  | None => Some []
  | Some (SList l) => Some l
  | Some _ => None
  end.

(** A series of comment requests ([uid], [comment], time of handling),
    handled one after the other on the same document. *)
Fixpoint comment_all (requests : list (string * string * string))
    (doc_ref : option (gmap string stored)) : option (gmap string stored) :=
  match requests with
  | [] => doc_ref
  | (uid, comment, now) :: rest =>
      comment_all rest (comment_questions uid comment now doc_ref).2
  end.

Definition commented_document : gmap string stored :=
  {[ "question" := SStr "What colour is the sky?";
     "comments" := SList [EComment (mkComment "ann" "Too easy" "2024-05-01T10:00:00")] ]}.

End Comments.

(** ** The question documents by path, and [delete_questions] *)

Module Db.

(** [users/<uid>/<name>/<question_id>]. *)
Definition path : Type := string * string * string.


(** A handler that works on one referenced document, run against the
    store: [doc_ref.get()] before, the writes of the handler after. *)
Definition on_document {D R} (handler : option D → R * option D)
    (p : path) (db : gmap path D) : R * gmap path D :=
  let '(response, doc) := handler (db !! p) in
  (response, match doc with
             | Some data => <[p := data]> db
             | None => delete p db
             end).

(** [rate_questions] with the path and rating of the request body. *)
Definition rate_at (uid name question_id : string) (rating : Rating)
    (db : gmap path (gmap string value))
    : result (gmap string value) * gmap path (gmap string value) :=
  on_document (Rate.rate_questions rating) (uid, name, question_id) db.


(** Two rated questions of one topic. *)
Definition sample_db : gmap path (gmap string value) :=
  {[ ("u1", "facts", "q1") := Rate.rated_document;
     ("u1", "facts", "q2") := {[ "question" := VStr "Is water wet?" ]} ]}.

End Db.
(** * Properties *)

(** ** Strings *)

Module StrFacts.
Import Str.

Lemma app_assoc (a b c : string) : (a +:+ b) +:+ c = a +:+ b +:+ c.
Proof.
  induction a as [|x a IH]; [done|].
  unfold String.app in *; simpl. by rewrite IH.
Qed.

Lemma app_nil_r (a : string) : a +:+ "" = a.
Proof.
  induction a as [|x a IH]; [done|].
  unfold String.app in *; simpl. by rewrite IH.
Qed.

Lemma app_nil_l (a : string) : "" +:+ a = a.
Proof. done. Qed.

Lemma app_cons (x : ascii) (a b : string) :
  String x a +:+ b = String x (a +:+ b).
Proof. done. Qed.

Lemma concat_cons (s : string) (l : list string) :
  String.concat "" (s :: l) = s +:+ String.concat "" l.
Proof.
  destruct l as [|t l]; simpl; [by rewrite app_nil_r|done].
Qed.

Lemma concat_app (l1 l2 : list string) :
  String.concat "" (l1 ++ l2) = String.concat "" l1 +:+ String.concat "" l2.
Proof.
  induction l1 as [|s l1 IH]; [done|].
  rewrite <- app_comm_cons, !concat_cons, IH. by rewrite app_assoc.
Qed.




(** A string without delimiter is its own single piece. *)
Lemma split_no_delim (delim : ascii → bool) (s : string) :
  (∀ c, mem c s = true → delim c = false) → split delim s = [s].
Proof.
  induction s as [|a s IH]; intros H; simpl; [done|].
  rewrite (H a) by (simpl; by rewrite decide_True).
  rewrite IH; [done|]. intros c Hc. apply H. simpl. by case_decide.
Qed.


Lemma prefix_spec (a s : string) :
  String.prefix a s = true ↔ ∃ suffix, s = a +:+ suffix.
Proof.
  revert s. induction a as [|x a IH]; intros s.
  - split; [intros _; by exists s|intros _; by destruct s].
  - destruct s as [|y s]; simpl.
    + split; [done|]. by intros [? ?].
    + destruct (ascii_dec x y) as [->|Hne].
      * rewrite IH. split; intros [suffix H]; exists suffix.
        -- by rewrite app_cons, H.
        -- rewrite app_cons in H. by simplify_eq.
      * split; [done|]. intros [suffix H]. rewrite app_cons in H. by simplify_eq.
Qed.

Lemma contains_spec (needle hay : string) :
  contains needle hay = true ↔ ∃ before after, hay = before +:+ needle +:+ after.
Proof.
  induction hay as [|y hay IH]; cbn [contains].
  - rewrite orb_false_r, prefix_spec. split.
    + intros [suffix H]. by exists "", suffix.
    + intros (before & after & H). exists after.
      destruct before; [done|]. by rewrite app_cons in H.
  - rewrite orb_true_iff, prefix_spec, IH. split.
    + intros [[suffix H]|(before & after & H)].
      * by exists "", suffix.
      * exists (String y before), after. by rewrite app_cons, H.
    + intros (before & after & H). destruct before as [|x before].
      * left. by exists after.
      * right. rewrite app_cons in H. simplify_eq. by exists before, after.
Qed.

Lemma lower_app (a b : string) : lower (a +:+ b) = lower a +:+ lower b.
Proof.
  induction a as [|x a IH]; [done|].
  rewrite app_cons. simpl. by rewrite IH, app_cons.
Qed.

(** A cut of the lowered string is the lowering of a cut. *)
Lemma lower_split (s a b : string) :
  lower s = a +:+ b → ∃ x y, s = x +:+ y ∧ lower x = a ∧ lower y = b.
Proof.
  revert s. induction a as [|c a IH]; intros s H.
  - by exists "", s.
  - destruct s as [|d s]; [done|]. rewrite app_cons in H. simpl in H.
    simplify_eq. destruct (IH s) as (x & y & -> & <- & <-); [done|].
    by exists (String d x), y.
Qed.

Lemma replace_app (c : ascii) (b x y : string) :
  replace c b (x +:+ y) = replace c b x +:+ replace c b y.
Proof.
  induction x as [|a x IH]; [done|].
  rewrite app_cons. simpl. rewrite IH.
  case_decide; [by rewrite app_assoc|done].
Qed.

Lemma replace_cons (c : ascii) (b : string) (a : ascii) (s : string) :
  replace c b (String a s) = replace c b (String a "") +:+ replace c b s.
Proof. change (String a s) with (String a "" +:+ s). apply replace_app. Qed.

End StrFacts.

Lemma Element_forall_ind (P : Moodle.Element → Prop) :
  (∀ tag attrib text children,
     Forall P children → P (Moodle.Elem tag attrib text children)) →
  ∀ e, P e.
Proof.
  intros H. fix IH 1. intros [tag attrib text children]. apply H.
  induction children as [|c cs IHcs]; constructor; [apply IH|apply IHcs].
Qed.

(** ** Lists *)

Lemma filter_all {A} (P : A → Prop) `{∀ x, Decision (P x)} (l : list A) :
  (∀ x, x ∈ l → P x) → filter P l = l.
Proof.
  induction l as [|x l IH]; intros Hl; [done|].
  rewrite filter_cons_True by (apply Hl; left).
  f_equal. apply IH. intros y Hy. apply Hl. by right.
Qed.

Lemma filter_none {A} (P : A → Prop) `{∀ x, Decision (P x)} (l : list A) :
  (∀ x, x ∈ l → ¬ P x) → filter P l = [].
Proof.
  induction l as [|x l IH]; intros Hl; [done|].
  rewrite filter_cons_False by (apply Hl; left).
  apply IH. intros y Hy. apply Hl. by right.
Qed.

(** ** Aiken export *)

Section aiken_facts.
Import Str StrFacts Aiken.








(** *** Reading the answer line back *)










End aiken_facts.

(** ** Duplicate detection *)

(** The traversal of all pairs of positions, for any kind of entry. *)
Section pair_traversal.
Context {E : Type}.
(** What the pair ([i], [j]) contributes, and the positions an entry names. *)
Import Duplicates.
Variable emit : nat → Question → nat → Question → list E.
Variable positions : E → nat * nat.
Hypothesis emit_positions :
  ∀ i qi j qj e, e ∈ emit i qi j qj → positions e = (i, j).


Lemma emit_filter_same i qi j qj :
  filter (λ e, positions e = (i, j)) (emit i qi j qj) = emit i qi j qj.
Proof.
  apply filter_all. intros e He. by apply emit_positions in He.
Qed.

Lemma emit_filter_other i qi j qj i' j' :
  (i, j) ≠ (i', j') →
  filter (λ e, positions e = (i', j')) (emit i qi j qj) = [].
Proof.
  intros Hne. apply filter_none. intros e He.
  apply emit_positions in He. congruence.
Qed.

Lemma row_filter_miss i qi j later i' j' :
  i ≠ i' ∨ j' < j →
  filter (λ e, positions e = (i', j')) (row emit i qi j later) = [].
Proof.
  revert j. induction later as [|qj later IH]; intros j H; simpl; [done|].
  rewrite list.filter_app, emit_filter_other, IH; [done|lia|].
  intros [= -> ->]. lia.
Qed.

Lemma row_filter_hit i qi j0 later j qj :
  j0 ≤ j → later !! (j - j0) = Some qj →
  filter (λ e, positions e = (i, j)) (row emit i qi j0 later) = emit i qi j qj.
Proof.
  revert j0. induction later as [|q later IH]; intros j0 Hle Hl; [done|].
  simpl. rewrite list.filter_app. destruct (decide (j = j0)) as [->|Hne].
  - rewrite Nat.sub_diag in Hl. simplify_eq/=.
    rewrite emit_filter_same, row_filter_miss by lia. by rewrite app_nil_r.
  - rewrite emit_filter_other by (intros [=]; lia). simpl.
    apply IH; [lia|]. replace (j - j0) with (S (j - S j0)) in Hl by lia. done.
Qed.

Lemma triangle_filter i0 from i j qi qj :
  i0 ≤ i → i < j →
  from !! (i - i0) = Some qi → from !! (j - i0) = Some qj →
  filter (λ e, positions e = (i, j)) (triangle emit i0 from) = emit i qi j qj.
Proof.
  revert i0. induction from as [|q later IH]; intros i0 Hle Hlt Hi Hj; [done|].
  simpl. rewrite list.filter_app. destruct (decide (i = i0)) as [->|Hne].
  - rewrite Nat.sub_diag in Hi. simplify_eq/=.
    replace (j - i0) with (S (j - S i0)) in Hj by lia. simpl in Hj.
    rewrite (row_filter_hit _ _ _ _ _ qj) by (done || lia).
    assert (∀ k l, i0 < k →
      filter (λ e, positions e = (i0, j)) (triangle emit k l) = []) as Hnil.
    { intros k l. revert k. induction l as [|x l IHl]; intros k Hk; [done|].
      simpl. rewrite list.filter_app, row_filter_miss, IHl by lia. done. }
    rewrite Hnil by lia. by rewrite app_nil_r.
  - rewrite row_filter_miss by lia. simpl.
    replace (i - i0) with (S (i - S i0)) in Hi by lia.
    replace (j - i0) with (S (j - S i0)) in Hj by lia.
    apply IH; (done || lia).
Qed.

Lemma row_elem i qi j0 later e :
  e ∈ row emit i qi j0 later →
  ∃ j qj, j0 ≤ j ∧ later !! (j - j0) = Some qj ∧ e ∈ emit i qi j qj.
Proof.
  revert j0. induction later as [|q later IH]; intros j0; simpl.
  - by intros ?%elem_of_nil.
  - intros [He|He]%elem_of_app.
    + exists j0, q. rewrite Nat.sub_diag. done.
    + destruct (IH _ He) as (j & qj & ? & Hj & ?).
      exists j, qj. replace (j - j0) with (S (j - S j0)) by lia.
      split; [lia|done].
Qed.

Lemma triangle_elem i0 from e :
  e ∈ triangle emit i0 from →
  ∃ i j qi qj, i0 ≤ i ∧ i < j ∧
    from !! (i - i0) = Some qi ∧ from !! (j - i0) = Some qj ∧
    e ∈ emit i qi j qj.
Proof.
  revert i0. induction from as [|q later IH]; intros i0; simpl.
  - by intros ?%elem_of_nil.
  - intros [He|He]%elem_of_app.
    + destruct (row_elem _ _ _ _ _ He) as (j & qj & ? & Hj & ?).
      exists i0, j, q, qj. rewrite Nat.sub_diag.
      replace (j - i0) with (S (j - S i0)) by lia.
      repeat split; (done || lia).
    + destruct (IH _ He) as (i & j & qi & qj & ? & ? & Hi & Hj & ?).
      exists i, j, qi, qj.
      replace (i - i0) with (S (i - S i0)) by lia.
      replace (j - i0) with (S (j - S i0)) by lia.
      repeat split; (done || lia).
Qed.

End pair_traversal.

Section duplicates_facts.
Import Duplicates.

Lemma answers_loop_spec idx1 idx2 choices1 q2 acc :
  answers_loop idx1 idx2 choices1 q2 acc =
  acc ++ ((λ a, mkDuplicateAnswer a idx1 idx2) <$> filter (.∈ choices q2) choices1).
Proof.
  revert acc. induction choices1 as [|a l IH]; intros acc; simpl.
  - by rewrite app_nil_r.
  - rewrite IH. case_bool_decide.
    + rewrite filter_cons_True by done. by rewrite <- app_assoc.
    + by rewrite filter_cons_False by done.
Qed.

Lemma inner_loop_spec idx1 q1 idx2 later dqs das :
  inner_loop idx1 q1 idx2 later (dqs, das) =
  (dqs ++ row emit_question idx1 q1 idx2 later,
   das ++ row emit_answers idx1 q1 idx2 later).
Proof.
  revert idx2 dqs das. induction later as [|q2 later IH]; intros idx2 dqs das.
  - simpl. by rewrite !app_nil_r.
  - cbn [inner_loop row fst snd]. rewrite answers_loop_spec, IH.
    unfold emit_question at 2, emit_answers at 2.
    rewrite <- !app_assoc. f_equal.
    case_bool_decide; case_decide; try done. by rewrite <- app_assoc.
Qed.

Lemma outer_loop_spec idx1 from dqs das :
  outer_loop idx1 from (dqs, das) =
  (dqs ++ triangle emit_question idx1 from,
   das ++ triangle emit_answers idx1 from).
Proof.
  revert idx1 dqs das. induction from as [|q1 later IH]; intros idx1 dqs das.
  - simpl. by rewrite !app_nil_r.
  - cbn [outer_loop triangle]. rewrite inner_loop_spec, IH.
    by rewrite <- !app_assoc.
Qed.

Lemma get_duplicates_spec questions :
  get_duplicate_questions_answers questions =
  (triangle emit_question 0 questions, triangle emit_answers 0 questions).
Proof. unfold get_duplicate_questions_answers. by rewrite outer_loop_spec. Qed.

Lemma emit_question_positions i qi j qj e :
  e ∈ emit_question i qi j qj → (dq_position1 e, dq_position2 e) = (i, j).
Proof.
  unfold emit_question. case_decide; [|by intros ?%elem_of_nil].
  by intros ->%list_elem_of_singleton.
Qed.

Lemma emit_answers_positions i qi j qj e :
  e ∈ emit_answers i qi j qj → (da_position1 e, da_position2 e) = (i, j).
Proof.
  unfold emit_answers. by intros (a & -> & _)%list_elem_of_fmap.
Qed.

Lemma questions_at_filter i j l :
  questions_at i j l = filter (λ e, (dq_position1 e, dq_position2 e) = (i, j)) l.
Proof.
  unfold questions_at. apply list_filter_iff. intros e.
  split; [by intros [-> ->]|by intros [= -> ->]].
Qed.

Lemma answers_at_filter i j l :
  answers_at i j l = filter (λ e, (da_position1 e, da_position2 e) = (i, j)) l.
Proof.
  unfold answers_at. apply list_filter_iff. intros e.
  split; [by intros [-> ->]|by intros [= -> ->]].
Qed.

(** Without a repeated string in the first array, the choices of the
    first array found in the second are as many as the shared strings. *)
Lemma shared_choice_strings_NoDup (c1 c2 : list string) :
  NoDup c1 → length (filter (.∈ c2) c1) = shared_choice_strings c1 c2.
Proof.
  intros Hnd. unfold shared_choice_strings.
  rewrite <- (size_list_to_set (C := gset string) (filter (.∈ c2) c1))
    by by apply list.NoDup_filter.
  f_equal. apply set_eq. intros x.
  rewrite elem_of_list_to_set, list_elem_of_filter, elem_of_intersection,
    !elem_of_list_to_set. tauto.
Qed.

(** The scenario of the description: the same stem at positions 0 and 2
    only, and no choice string in common between any two questions. *)
Lemma twin_stems_report (q0 q1 q2 : Question) :
  text q0 = text q2 → text q1 ≠ text q0 →
  disjoint_choices q0 q1 → disjoint_choices q0 q2 → disjoint_choices q1 q2 →
  get_duplicate_questions_answers [q0; q1; q2] =
  ([mkDuplicateQuestion (text q0) 0 2], []).
Proof.
  intros H02 H10 D01 D02 D12. rewrite get_duplicates_spec.
  assert (∀ i j qa qb, disjoint_choices qa qb → emit_answers i qa j qb = [])
    as Hnil.
  { intros i j qa qb D. unfold emit_answers.
    rewrite filter_none; [done|]. intros a Ha. by apply D. }
  cbn [triangle row]. rewrite !Hnil by done.
  unfold emit_question. rewrite decide_False by congruence.
  rewrite decide_True by done. rewrite decide_False by congruence. done.
Qed.

(** C4 (amended). For every question sequence and every pair of
    positions [i < j]: the duplicate-question entries for the pair are
    the single entry [{text, i, j}] when the two stems are the same
    string and none otherwise; the duplicate-answer entries for the pair
    are one per position of [questions[i].choices] whose string occurs in
    [questions[j].choices], which is the number of shared choice strings
    when [questions[i].choices] holds no string twice; every reported
    entry names such a pair; and three questions with the same stem at
    positions 0 and 2 only and no common choice give exactly one
    duplicate-question entry, for positions 0 and 2, and no
    duplicate-answer entry. *)
Theorem find_duplicates_per_pair (questions : list Question) (i j : nat)
    (qi qj : Question) :
  questions !! i = Some qi → questions !! j = Some qj → i < j →
  let report := get_duplicate_questions_answers questions in
  questions_at i j report.1 =
    (if decide (text qi = text qj)
     then [mkDuplicateQuestion (text qi) i j] else []) ∧
  answers_at i j report.2 =
    ((λ a, mkDuplicateAnswer a i j) <$> filter (.∈ choices qj) (choices qi)) ∧
  (NoDup (choices qi) →
     length (answers_at i j report.2) =
     shared_choice_strings (choices qi) (choices qj)) ∧
  (∀ e, e ∈ report.1 →
     dq_position1 e < dq_position2 e < length questions) ∧
  (∀ e, e ∈ report.2 →
     da_position1 e < da_position2 e < length questions) ∧
  (∀ q0 q1 q2, questions = [q0; q1; q2] →
     text q0 = text q2 → text q1 ≠ text q0 →
     disjoint_choices q0 q1 → disjoint_choices q0 q2 → disjoint_choices q1 q2 →
     report = ([mkDuplicateQuestion (text q0) 0 2], [])).
Proof.
  intros Hi Hj Hlt report. subst report. rewrite get_duplicates_spec. simpl.
  assert (answers_at i j (triangle emit_answers 0 questions)
          = emit_answers i qi j qj) as Hans.
  { rewrite answers_at_filter.
    apply (triangle_filter emit_answers _ emit_answers_positions);
      rewrite ?Nat.sub_0_r; (done || lia). }
  split_and!.
  - rewrite questions_at_filter.
    apply (triangle_filter emit_question _ emit_question_positions);
      rewrite ?Nat.sub_0_r; (done || lia).
  - exact Hans.
  - intros Hnd. rewrite Hans. unfold emit_answers.
    rewrite length_fmap. by apply shared_choice_strings_NoDup.
  - intros e He.
    destruct (triangle_elem _ _ _ _ He) as (a & b & qa & qb & _ & ? & _ & Hb & Hab).
    apply emit_question_positions in Hab as [= -> ->].
    rewrite Nat.sub_0_r in Hb. apply lookup_lt_Some in Hb. lia.
  - intros e He.
    destruct (triangle_elem _ _ _ _ He) as (a & b & qa & qb & _ & ? & _ & Hb & Hab).
    apply emit_answers_positions in Hab as [= -> ->].
    rewrite Nat.sub_0_r in Hb. apply lookup_lt_Some in Hb. lia.
  - intros q0 q1 q2 -> H02 H10 D01 D02 D12.
    rewrite <- get_duplicates_spec. by apply twin_stems_report.
Qed.

Lemma find_duplicates_per_pair_witness :
  twin_stem_questions !! 0 =
    Some (mkQuestion "What colour is the sky?" ["blue"; "green"; "red"; "pink"] "blue") ∧
  twin_stem_questions !! 2 =
    Some (mkQuestion "What colour is the sky?" ["azure"; "grey"; "black"; "white"] "azure") ∧
  0 < 2 ∧
  questions_at 0 2 (get_duplicate_questions_answers twin_stem_questions).1 =
    [mkDuplicateQuestion "What colour is the sky?" 0 2] ∧
  answers_at 0 2 (get_duplicate_questions_answers twin_stem_questions).2 = [].
Proof.
  assert (0 < 2) as Hlt by lia.
  pose proof (find_duplicates_per_pair twin_stem_questions 0 2 _ _
                eq_refl eq_refl Hlt) as (Hq & Ha & _).
  split; [reflexivity|]. split; [reflexivity|]. split; [exact Hlt|].
  split; [exact Hq|exact Ha].
Defined.

(** The claim as worded fails where the first array of a pair repeats a
    string the second array has: ["Paris"] is the one string the two
    arrays of [repeated_choice_questions] share, and the pair gets two
    entries. *)
Lemma shared_choice_count_counterexample :
  ¬ (∀ questions i j qi qj,
       questions !! i = Some qi → questions !! j = Some qj → i < j →
       length (answers_at i j (get_duplicate_questions_answers questions).2) =
       shared_choice_strings (choices qi) (choices qj)).
Proof.
  intros H.
  specialize (H repeated_choice_questions 0 1 _ _ eq_refl eq_refl).
  specialize (H ltac:(lia)). vm_compute in H. discriminate H.
Qed.

End duplicates_facts.

(** ** Rating *)

Section rate_facts.
Import Rate.















End rate_facts.

(** ** Keyword search *)

Section search_facts.
Import Str StrFacts Search.

(** The test of the code is the case-insensitive occurrence. *)
Lemma contains_lower_spec (keyword text : string) :
  contains (lower keyword) (lower text) = true ↔
  occurs_ignoring_case keyword text.
Proof.
  rewrite contains_spec. unfold occurs_ignoring_case. split.
  - intros (b & a & H).
    apply lower_split in H as (before & rest & -> & <- & H).
    apply lower_split in H as (stretch & after & -> & H & <-).
    by exists before, stretch, after.
  - intros (before & stretch & after & -> & H).
    exists (lower before), (lower after). by rewrite !lower_app, H.
Qed.

Lemma getitem_Some (data : gmap string value) (key : string) (v : value) :
  data !! key = Some v → getitem data key = Ok v.
Proof. unfold getitem. by intros ->. Qed.

Lemma getitem_None (data : gmap string value) (key : string) :
  data !! key = None → getitem data key = Raise (KeyError key).
Proof. unfold getitem. by intros ->. Qed.

Lemma question_of_fields (data : gmap string value) :
  is_Some (question_of data) → has_question_fields data.
Proof.
  unfold question_of, has_question_fields. intros [[[q l] c] H].
  destruct (data !! "question") as [[]|]; try done.
  destruct (data !! "all_ans") as [[| |m|]|]; try done.
  destruct (data !! "crct_ans"); try done.
  destruct (m !! "0") eqn:H0, (m !! "1") eqn:H1, (m !! "2") eqn:H2,
    (m !! "3") eqn:H3; try done.
  split_and!; [done..|]. exists m. split; [done|].
  intros [|[|[|[|i]]]] Hi; try lia;
    [change (pretty 0) with "0"|change (pretty 1) with "1"
    |change (pretty 2) with "2"|change (pretty 3) with "3"]; eauto.
Qed.

Lemma all_choices_schema (data : gmap string value) q l c :
  question_of data = Some (q, l, c) → all_choices data (seq 0 4) = Ok l.
Proof.
  unfold question_of. intros H.
  destruct (data !! "question") as [[]|] eqn:Hq; try done.
  destruct (data !! "all_ans") as [[| |m|]|] eqn:Ha; try done.
  destruct (data !! "crct_ans") eqn:Hc; try done.
  destruct (m !! "0") eqn:H0, (m !! "1") eqn:H1, (m !! "2") eqn:H2,
    (m !! "3") eqn:H3; try done.
  simplify_eq. cbn [seq all_choices]. rewrite !(getitem_Some _ _ _ Ha).
  cbn [mbind result_bind subscript].
  change (pretty 0) with "0". change (pretty 1) with "1".
  change (pretty 2) with "2". change (pretty 3) with "3".
  by rewrite H0, H1, H2, H3.
Qed.

(** A document of the schema adds its match, if it has one. *)
Lemma visit_document_schema keyword u c doc acc :
  is_Some (question_of (doc_data doc)) →
  visit_document keyword u c doc acc = Ok (acc ++ match_of keyword (u, c, doc)).
Proof.
  intros [[[q l] cc] H]. unfold visit_document, match_of. cbv zeta. rewrite H.
  pose proof (all_choices_schema _ _ _ _ H) as Hall.
  unfold question_of in H.
  destruct (doc_data doc !! "question") as [[]|] eqn:Hq; try done.
  destruct (doc_data doc !! "all_ans") as [[| |m|]|] eqn:Ha; try done.
  destruct (doc_data doc !! "crct_ans") eqn:Hc; try done.
  destruct (m !! "0"), (m !! "1"), (m !! "2"), (m !! "3"); try done.
  simplify_eq. rewrite (getitem_Some _ _ _ Hq).
  cbn [mbind result_bind lower_of].
  destruct (contains (lower keyword) (lower q)); [|by rewrite List.app_nil_r].
  cbn [str_of mbind result_bind]. rewrite Hall.
  by rewrite (getitem_Some _ _ _ Hc).
Qed.

Lemma documents_loop_schema keyword u c docs acc :
  Forall (λ doc, is_Some (question_of (doc_data doc))) docs →
  documents_loop keyword u c docs acc =
  Ok (acc ++ (doc ← docs; match_of keyword (u, c, doc))).
Proof.
  intros H. revert acc. induction H as [|doc docs Hd _ IH]; intros acc.
  - simpl. by rewrite List.app_nil_r.
  - cbn [documents_loop]. rewrite visit_document_schema by done.
    cbn [mbind result_bind]. rewrite IH, bind_cons. by rewrite <- List.app_assoc.
Qed.

Lemma bind_singleton_map {A B C} (f : A → B) (g : B → list C) (l : list A) :
  ((x ← l; [f x]) ≫= g) = (x ← l; g (f x)).
Proof.
  induction l as [|x l IH]; [done|].
  rewrite !bind_cons, bind_app, IH. simpl. by rewrite List.app_nil_r.
Qed.

Lemma collections_loop_schema keyword u cs acc :
  Forall (λ e, is_Some (question_of (doc_data e.2))) (reachable_in u cs) →
  collections_loop keyword u cs acc =
  Ok (acc ++ (reachable_in u cs ≫= match_of keyword)).
Proof.
  revert acc. induction cs as [|col cs IH]; intros acc H.
  - simpl. by rewrite List.app_nil_r.
  - unfold reachable_in in H. rewrite bind_cons in H.
    apply Forall_app in H as [Hd Hrest].
    cbn [collections_loop]. rewrite documents_loop_schema.
    + cbn [mbind result_bind]. rewrite IH by done.
      unfold reachable_in at 2. rewrite bind_cons, bind_app.
      rewrite bind_singleton_map. by rewrite <- List.app_assoc.
    + apply list.Forall_forall. intros doc Hdoc.
      rewrite list.Forall_forall in Hd.
      apply (Hd (u, collection_id col, doc)).
      apply list_elem_of_bind. exists doc. split; [left|done].
Qed.

Lemma reachable_cons user users :
  reachable (user :: users) =
  reachable_in (user_id user) (collections user) ++ reachable users.
Proof. unfold reachable. by rewrite bind_cons. Qed.

Lemma users_loop_schema keyword users acc :
  Forall (λ e, is_Some (question_of (doc_data e.2))) (reachable users) →
  users_loop keyword users acc = Ok (acc ++ (reachable users ≫= match_of keyword)).
Proof.
  revert acc. induction users as [|user users IH]; intros acc H.
  - simpl. by rewrite List.app_nil_r.
  - rewrite reachable_cons in H. apply Forall_app in H as [Hu Hrest].
    cbn [users_loop]. rewrite collections_loop_schema by done.
    cbn [mbind result_bind]. rewrite IH by done.
    rewrite reachable_cons, bind_app. by rewrite <- List.app_assoc.
Qed.

Lemma search_questions_schema keyword users :
  Forall (λ e, is_Some (question_of (doc_data e.2))) (reachable users) →
  search_questions keyword users = Ok (reachable users ≫= match_of keyword).
Proof.
  intros H. unfold search_questions. by rewrite users_loop_schema.
Qed.

Lemma match_of_elem keyword (e : string * string * Doc) (m : QuestionData) :
  m ∈ match_of keyword e ↔
  ∃ text choices correct,
    question_of (doc_data e.2) = Some (text, choices, correct) ∧
    occurs_ignoring_case keyword text ∧
    m = mkQuestionData e.1.1 e.1.2 (doc_id e.2) text choices correct
          (reported_rating (doc_data e.2)).
Proof.
  destruct e as [[u c] doc]. unfold match_of. simpl. split.
  - destruct (question_of (doc_data doc)) as [[[q l] cc]|];
      [|by intros ?%elem_of_nil].
    destruct (contains (lower keyword) (lower q)) eqn:Hc;
      [|by intros ?%elem_of_nil].
    intros ->%list_elem_of_singleton. exists q, l, cc.
    split; [done|]. split; [by apply contains_lower_spec|done].
  - intros (q & l & cc & -> & Hocc & ->).
    apply contains_lower_spec in Hocc. rewrite Hocc.
    by apply list_elem_of_singleton.
Qed.

(** C9. On a store whose reachable documents are stored questions,
    search returns, in the order of the store enumeration, exactly the
    questions of every topic of every user whose text contains the
    keyword under case-insensitive comparison; a match carries user id,
    collection name, question id, text, choices and correct choice, and
    the rating field exactly when the stored rating list is present and
    not empty. *)
Theorem search_returns_matches (keyword : string) (users : list User) :
  Forall (λ e, is_Some (question_of (doc_data e.2))) (reachable users) →
  search_questions keyword users = Ok (reachable users ≫= match_of keyword) ∧
  (∀ m, m ∈ (reachable users ≫= match_of keyword) ↔
     ∃ u c doc text choices correct,
       (u, c, doc) ∈ reachable users ∧
       question_of (doc_data doc) = Some (text, choices, correct) ∧
       occurs_ignoring_case keyword text ∧
       m = mkQuestionData u c (doc_id doc) text choices correct
             (reported_rating (doc_data doc))) ∧
  (∀ data l, data !! "rating" = Some (VRatings l) →
     reported_rating data = if decide (l = []) then None else Some (VRatings l)) ∧
  (∀ data, data !! "rating" = None → reported_rating data = None).
Proof.
  intros H. split_and!.
  - by apply search_questions_schema.
  - intros m. rewrite list_elem_of_bind. split.
    + intros ([[u c] doc] & Hm & He). apply match_of_elem in Hm
        as (q & l & cc & ? & ? & ?). by exists u, c, doc, q, l, cc.
    + intros (u & c & doc & q & l & cc & He & ? & ? & ->).
      exists (u, c, doc). split; [|done]. apply match_of_elem.
      by exists q, l, cc.
  - intros data l Hl. unfold reported_rating. rewrite Hl. simpl.
    by case_bool_decide; case_decide.
  - intros data Hl. unfold reported_rating. by rewrite Hl.
Qed.

Lemma search_returns_matches_witness :
  Forall (λ e, is_Some (question_of (doc_data e.2))) (reachable sample_store) ∧
  search_questions "SKY" sample_store =
    Ok [ mkQuestionData "ann" "physics" "q1" "What colour is the Sky?"
           ["blue"; "green"; "red"; "pink"] (VStr "blue")
           (Some (VRatings [mkRating "ann" 4]));
         mkQuestionData "bob" "weather" "q9" "What colour is the Sky?"
           ["blue"; "green"; "red"; "pink"] (VStr "blue")
           (Some (VRatings [mkRating "ann" 4])) ].
Proof.
  assert (Forall (λ e, is_Some (question_of (doc_data e.2)))
            (reachable sample_store)) as H.
  { repeat constructor; by eexists. }
  split; [exact H|].
  destruct (search_returns_matches "SKY" sample_store H) as [-> _].
  reflexivity.
Defined.

(** *** What search needs of the stored documents *)

Lemma contains_empty (s : string) : contains "" s = true.
Proof. by destruct s. Qed.

Lemma all_choices_fields (data : gmap string value) (l : list string) :
  all_choices data (seq 0 4) = Ok l →
  ∃ m, data !! "all_ans" = Some (VMap m) ∧ ∀ i, i < 4 → is_Some (m !! pretty i).
Proof.
  cbn [seq all_choices]. unfold getitem.
  destruct (data !! "all_ans") as [[| |m|]|]; try done.
  cbn [mbind result_bind subscript].
  destruct (m !! pretty 0) eqn:H0; [|done].
  destruct (m !! pretty 1) eqn:H1; [|done].
  destruct (m !! pretty 2) eqn:H2; [|done].
  destruct (m !! pretty 3) eqn:H3; [|done].
  intros _. exists m. split; [done|].
  intros [|[|[|[|i]]]] Hi; try lia; eauto.
Qed.

(** With the empty keyword every document is read in full. *)
Lemma visit_document_fields u c doc acc r :
  visit_document "" u c doc acc = Ok r → has_question_fields (doc_data doc).
Proof.
  unfold visit_document, has_question_fields. cbv zeta.
  destruct (doc_data doc !! "question") as [v|] eqn:Hq;
    [rewrite (getitem_Some _ _ _ Hq)|by rewrite (getitem_None _ _ Hq)].
  destruct v as [q| | |]; try done.
  cbn [mbind result_bind lower_of str_of]. change (lower "") with "".
  rewrite contains_empty.
  destruct (all_choices (doc_data doc) (seq 0 4)) as [l|] eqn:Hall; [|done].
  cbn [mbind result_bind].
  destruct (doc_data doc !! "crct_ans") eqn:Hc;
    [|by rewrite (getitem_None _ _ Hc)].
  intros _. split_and!; [done..|]. by eapply all_choices_fields.
Qed.

Lemma documents_loop_fields u c docs acc r :
  documents_loop "" u c docs acc = Ok r →
  Forall (λ doc, has_question_fields (doc_data doc)) docs.
Proof.
  revert acc. induction docs as [|doc docs IH]; intros acc H; [constructor|].
  cbn [documents_loop] in H.
  destruct (visit_document "" u c doc acc) as [acc'|] eqn:Hv; [|done].
  constructor; [by eapply visit_document_fields|by eapply IH].
Qed.

Lemma collections_loop_fields u cs acc r :
  collections_loop "" u cs acc = Ok r →
  Forall (λ e, has_question_fields (doc_data e.2)) (reachable_in u cs).
Proof.
  revert acc. induction cs as [|col cs IH]; intros acc H; [constructor|].
  cbn [collections_loop] in H.
  destruct (documents_loop "" u (collection_id col) (documents col) acc)
    as [acc'|] eqn:Hd; [|done].
  unfold reachable_in. rewrite bind_cons. apply Forall_app. split.
  - apply documents_loop_fields in Hd. apply list.Forall_forall.
    intros e (doc & ->%list_elem_of_singleton & Hdoc)%list_elem_of_bind.
    rewrite list.Forall_forall in Hd. by apply Hd.
  - by eapply IH.
Qed.

Lemma users_loop_fields users acc r :
  users_loop "" users acc = Ok r →
  Forall (λ e, has_question_fields (doc_data e.2)) (reachable users).
Proof.
  revert acc. induction users as [|user users IH]; intros acc H; [constructor|].
  cbn [users_loop] in H.
  destruct (collections_loop "" (user_id user) (collections user) acc)
    as [acc'|] eqn:Hc; [|done].
  rewrite reachable_cons. apply Forall_app. split.
  - by eapply collections_loop_fields.
  - by eapply IH.
Qed.

Lemma search_questions_outcome keyword users :
  (∃ r, search_questions keyword users = Ok r ∧ users_loop keyword users [] = Ok r)
  ∨ search_questions keyword users = Raise (HTTPException 500 "Internal Server Error").
Proof.
  unfold search_questions. destruct (users_loop keyword users []); eauto.
Qed.

(** C10. Search is total only on stores in which every reachable
    document has a ['question'] field, a ['crct_ans'] field and an
    ['all_ans'] mapping with the keys ["0"] to ["3"]; a reachable document
    without them makes the whole search fail with a 500 (here for the
    keyword that every text contains), and on [broken_store] the keyword
    SKY gets the 500 although two well-formed documents match it. *)
Theorem search_total_only_on_schema :
  (∀ users,
     (∀ keyword, is_ok (search_questions keyword users) = true) →
     Forall (λ e, has_question_fields (doc_data e.2)) (reachable users)) ∧
  (∀ users e,
     e ∈ reachable users → ¬ has_question_fields (doc_data e.2) →
     search_questions "" users =
       Raise (HTTPException 500 "Internal Server Error")) ∧
  (∃ e, e ∈ reachable broken_store ∧ ¬ has_question_fields (doc_data e.2)) ∧
  length (reachable broken_store ≫= match_of "SKY") = 2 ∧
  search_questions "SKY" broken_store =
    Raise (HTTPException 500 "Internal Server Error").
Proof.
  split_and!.
  - intros users H. specialize (H "").
    destruct (search_questions_outcome "" users) as [(r & _ & Hr)|Hr].
    + by eapply users_loop_fields.
    + by rewrite Hr in H.
  - intros users e He Hno.
    destruct (search_questions_outcome "" users) as [(r & _ & Hr)|Hr]; [|done].
    apply users_loop_fields in Hr. rewrite list.Forall_forall in Hr.
    destruct (Hno (Hr e He)).
  - exists ("ann", "physics", mkDoc "q3" malformed_document). split.
    + unfold broken_store, reachable, reachable_in. simpl. set_solver.
    + intros (_ & [? Hc] & _). by vm_compute in Hc.
  - by vm_compute.
  - by vm_compute.
Qed.

End search_facts.

(** ** Moodle export *)

Section moodle_facts.
Import Str StrFacts Moodle.

(** *** The tree *)

Lemma moodle_answers_loop_spec q answers tag attrib text children :
  answers_loop q answers (Elem tag attrib text children) =
  Elem tag attrib text (children ++ (answer_spec q <$> answers)).
Proof.
  revert children. induction answers as [|a l IH]; intros children.
  - simpl. by rewrite List.app_nil_r.
  - cbn [answers_loop sub_element]. rewrite IH, fmap_cons.
    by rewrite <- List.app_assoc.
Qed.

Lemma question_el_spec q : question_el q = question_spec q.
Proof. unfold question_el. simpl. by rewrite moodle_answers_loop_spec. Qed.

Lemma questions_loop_spec questions tag attrib text children :
  questions_loop questions (Elem tag attrib text children) =
  Elem tag attrib text (children ++ (question_spec <$> questions)).
Proof.
  revert children. induction questions as [|q l IH]; intros children.
  - simpl. by rewrite List.app_nil_r.
  - cbn [questions_loop sub_element]. rewrite IH, fmap_cons, question_el_spec.
    by rewrite <- List.app_assoc.
Qed.

Lemma quiz_tree_spec questions : quiz_tree questions = quiz_spec questions.
Proof. unfold quiz_tree. by rewrite questions_loop_spec. Qed.

(** *** The escapes, character by character *)

Lemma escape_cdata_cons (c : ascii) (s : string) :
  escape_cdata (String c s) = escape_cdata_char c +:+ escape_cdata s.
Proof.
  unfold escape_cdata.
  rewrite (replace_cons "&" _ c s), !replace_app. f_equal.
  unfold escape_cdata_char.
  repeat (cbn [replace]; case_decide; [subst; by vm_compute|]).
  by cbn [replace].
Qed.

Lemma escape_attrib_cons (c : ascii) (s : string) :
  escape_attrib (String c s) = escape_attrib_char c +:+ escape_attrib s.
Proof.
  unfold escape_attrib.
  rewrite (replace_cons "&" _ c s), !replace_app. f_equal.
  unfold escape_attrib_char.
  repeat (cbn [replace]; case_decide; [subst; by vm_compute|]).
  by cbn [replace].
Qed.

(** *** The grammar *)

Lemma all_chars_app (p : ascii → bool) (a b : string) :
  Moodle.all_chars p (a +:+ b) = Moodle.all_chars p a && Moodle.all_chars p b.
Proof.
  induction a as [|c a IH]; [done|].
  rewrite app_cons. cbn [all_chars]. rewrite IH. by rewrite andb_assoc.
Qed.

Lemma all_chars_impl (p q : ascii → bool) (s : string) :
  (∀ c, p c = true → q c = true) →
  all_chars p s = true → all_chars q s = true.
Proof.
  intros Hpq. induction s as [|c s IH]; [done|]. cbn [all_chars].
  intros [Hc Hs]%andb_prop. by rewrite (Hpq c Hc), IH.
Qed.

Lemma content_cons (c : ascii) (t : string) :
  char_data_char c = true → derives Content t → derives Content (String c t).
Proof.
  intros Hc H. inversion H as [s Hs|s r rest Hs Hr Hrest|s e rest Hs He Hrest| |];
    subst.
  - apply content_char_data. unfold char_data in *. cbn [all_chars].
    by rewrite Hc.
  - change (derives Content (String c s +:+ r +:+ rest)).
    apply content_reference; [|done..]. unfold char_data in *.
    cbn [all_chars]. by rewrite Hc.
  - change (derives Content (String c s +:+ e +:+ rest)).
    apply content_element; [|done..]. unfold char_data in *.
    cbn [all_chars]. by rewrite Hc.
Qed.

Lemma content_char_data_app (s b : string) :
  char_data s = true → derives Content b → derives Content (s +:+ b).
Proof.
  induction s as [|c s IH]; [done|]. unfold char_data in *. cbn [all_chars].
  intros [Hc Hs]%andb_prop Hb. rewrite app_cons. apply content_cons; auto.
Qed.

Lemma content_app (a b : string) :
  derives Content a → derives Content b → derives Content (a +:+ b).
Proof.
  intros Ha Hb. remember Content as k eqn:Hk.
  induction Ha as [s Hs|s r rest Hs Hr Hrest IH|s e rest Hs He _ Hrest IH| |];
    try discriminate Hk.
  - by apply content_char_data_app.
  - rewrite !app_assoc. apply content_reference; auto.
  - rewrite !app_assoc. apply content_element; auto.
Qed.

Lemma content_escape_cdata (s : string) :
  all_chars xml_char s = true → derives Content (escape_cdata s).
Proof.
  induction s as [|c s IH]; [intros _; by apply content_char_data|].
  cbn [all_chars]. intros [Hc Hs]%andb_prop. rewrite escape_cdata_cons.
  specialize (IH Hs). unfold escape_cdata_char.
  repeat case_decide.
  - apply (content_reference "" "&amp;"); [done|set_solver|done].
  - apply (content_reference "" "&lt;"); [done|set_solver|done].
  - apply (content_reference "" "&gt;"); [done|set_solver|done].
  - rewrite app_cons, app_nil_l. apply content_cons; [|done].
    unfold char_data_char. rewrite Hc.
    by rewrite !bool_decide_eq_false_2.
Qed.

Lemma att_value_escape_attrib (v : string) :
  all_chars xml_char v = true → att_value (escape_attrib v).
Proof.
  induction v as [|c v IH]; [intros _; constructor|].
  cbn [all_chars]. intros [Hc Hv]%andb_prop. rewrite escape_attrib_cons.
  specialize (IH Hv). unfold escape_attrib_char.
  assert (∀ r, r ∈ references → att_value (r +:+ escape_attrib v)) as Href.
  { intros r Hr. by apply att_value_reference. }
  case_decide; [apply Href; unfold references; by repeat constructor|].
  case_decide; [apply Href; unfold references; by repeat constructor|].
  case_decide; [apply Href; unfold references; by repeat constructor|].
  case_decide; [apply Href; unfold references; by repeat constructor|].
  case_decide; [apply Href; unfold references; by repeat constructor|].
  case_decide; [apply Href; unfold references; by repeat constructor|].
  case_decide; [apply Href; unfold references; by repeat constructor|].
  rewrite app_cons, app_nil_l. apply att_value_char_cons; [|done].
  unfold att_value_char. rewrite Hc.
  by rewrite !bool_decide_eq_false_2.
Qed.

Lemma attributes_serialize (attrib : list (string * string)) :
  attrib_ok attrib = true →
  attributes attrib.*1 (serialize_attributes attrib).
Proof.
  unfold attrib_ok. intros [Hall Hnd%bool_decide_eq_true_1]%andb_prop.
  induction attrib as [|[name v] attrib IH]; [constructor|].
  cbn [forallb fst snd] in Hall.
  apply andb_prop in Hall as [[Hname Hv]%andb_prop Hall].
  rewrite fmap_cons in Hnd. apply list.NoDup_cons in Hnd as [Hnotin Hnd].
  unfold serialize_attributes. rewrite !fmap_cons, concat_cons.
  fold (serialize_attributes attrib). unfold serialize_attribute. simpl.
  rewrite !app_assoc.
  change (String dquote "" +:+ serialize_attributes attrib)
    with (String dquote (serialize_attributes attrib)).
  apply attributes_cons; auto using att_value_escape_attrib.
Qed.

Lemma content_children (children : list Element) :
  Forall (λ e, derives AnElement (serialize e)) children →
  derives Content (String.concat "" (serialize <$> children)).
Proof.
  induction 1 as [|e l He _ IH]; [by apply content_char_data|].
  rewrite fmap_cons, concat_cons.
  by apply (content_element "" (serialize e)).
Qed.

(** The serializer writes well-formed markup for every tree whose
    names are names and whose strings hold only XML characters. *)
Lemma serialize_well_formed (e : Element) :
  tree_ok e = true → derives AnElement (serialize e).
Proof.
  induction e as [tag attrib text children IH] using Element_forall_ind.
  cbn [tree_ok serialize].
  intros [[[Htag Hattr]%andb_prop Htext]%andb_prop Hch]%andb_prop.
  apply attributes_serialize in Hattr.
  destruct (bool_decide (text_of text = "") && bool_decide (children = [])).
  - by eapply element_empty.
  - rewrite <- (app_assoc (escape_cdata (text_of text))).
    eapply element_tags; [done..|].
    apply content_app; [by apply content_escape_cdata|].
    apply content_children.
    rewrite forallb_forall in Hch. rewrite list.Forall_forall in IH.
    apply list.Forall_forall. intros c Hc. apply IH; [done|].
    apply Hch. by apply list_elem_of_In.
Qed.

Lemma tree_ok_intro tag attrib text children :
  is_name tag = true → attrib_ok attrib = true →
  all_chars xml_char (text_of text) = true →
  Forall (λ c, tree_ok c = true) children →
  tree_ok (Elem tag attrib text children) = true.
Proof.
  intros Htag Hattr Htext Hch. cbn [tree_ok]. rewrite Htag, Hattr, Htext.
  apply forallb_forall. intros c Hc%list_elem_of_In.
  rewrite list.Forall_forall in Hch. by apply Hch.
Qed.

Lemma tree_ok_text_el (s : string) :
  all_chars xml_char s = true → tree_ok (text_el s) = true.
Proof. intros H. by apply tree_ok_intro. Qed.

Lemma tree_ok_answer_spec (q : Question) (a : string) :
  all_chars xml_char a = true → tree_ok (answer_spec q a) = true.
Proof.
  intros Ha. unfold answer_spec, fraction_of, feedback_of.
  apply tree_ok_intro; [done| |done|].
  - by case_decide.
  - repeat constructor; [by apply tree_ok_text_el|].
    apply tree_ok_intro; [done..|]. repeat constructor.
    apply tree_ok_text_el. by case_decide.
Qed.

Lemma tree_ok_question_spec (q : Question) :
  xml_text q = true → tree_ok (question_spec q) = true.
Proof.
  unfold xml_text. intros [Htext Hch]%andb_prop.
  apply tree_ok_intro; [done..|].
  constructor; [|constructor].
  - apply tree_ok_intro; [done..|]. repeat constructor.
    by apply tree_ok_text_el.
  - apply tree_ok_intro; [done..|]. repeat constructor.
    apply tree_ok_text_el. rewrite !all_chars_app, Htext. done.
  - apply Forall_fmap, list.Forall_forall. intros a Ha.
    apply tree_ok_answer_spec. rewrite forallb_forall in Hch.
    apply Hch. by apply list_elem_of_In.
Qed.

Lemma tree_ok_quiz_spec (questions : list Question) :
  forallb xml_text questions = true → tree_ok (quiz_spec questions) = true.
Proof.
  intros H. apply tree_ok_intro; [done..|].
  apply Forall_fmap, list.Forall_forall. intros q Hq.
  apply tree_ok_question_spec. rewrite forallb_forall in H.
  apply H. by apply list_elem_of_In.
Qed.

(** *** Every character of a well-formed document is an XML character *)

Lemma name_char_xml (c : ascii) : name_char c = true → xml_char c = true.
Proof.
  unfold name_char, name_start_char, xml_char.
  generalize (nat_of_ascii c). intros n H.
  repeat (apply orb_prop in H as [H|H]);
    repeat (apply andb_prop in H as [? H]);
    repeat match goal with
    | H : (_ <=? _) = true |- _ => apply Nat.leb_le in H
    | H : (_ =? _) = true |- _ => apply Nat.eqb_eq in H
    end;
    (replace (32 <=? n) with true by (symmetry; apply Nat.leb_le; lia));
    by rewrite !orb_true_r.
Qed.

Lemma name_xml (name : string) :
  is_name name = true → all_chars xml_char name = true.
Proof.
  destruct name as [|c name]; [done|]. cbn [is_name all_chars].
  intros [Hc Hname]%andb_prop.
  rewrite (all_chars_impl _ _ _ name_char_xml Hname), andb_true_r.
  apply name_char_xml. unfold name_char. by rewrite Hc.
Qed.

Lemma reference_xml (r : string) :
  r ∈ references → all_chars xml_char r = true.
Proof.
  unfold references. rewrite !elem_of_cons, elem_of_nil.
  intros H. by repeat destruct H as [->|H].
Qed.

Lemma att_value_xml (v : string) : att_value v → all_chars xml_char v = true.
Proof.
  induction 1 as [|c s Hc _ IH|r s Hr _ IH]; [done| |].
  - cbn [all_chars]. rewrite IH, andb_true_r.
    unfold att_value_char in Hc. by repeat apply andb_prop in Hc as [Hc _].
  - by rewrite all_chars_app, (reference_xml _ Hr), IH.
Qed.

Lemma attributes_xml names attrs :
  attributes names attrs → all_chars xml_char attrs = true.
Proof.
  induction 1 as [|name v names rest Hname Hv _ _ IH]; [done|].
  rewrite !all_chars_app. cbn [all_chars].
  by rewrite (name_xml _ Hname), (att_value_xml _ Hv), IH.
Qed.

Lemma char_data_xml (s : string) : char_data s = true → all_chars xml_char s = true.
Proof.
  apply all_chars_impl. intros c Hc. unfold char_data_char in Hc.
  by repeat apply andb_prop in Hc as [Hc _].
Qed.

Lemma derives_xml_chars (k : syntax) (s : string) :
  derives k s → all_chars xml_char s = true.
Proof.
  induction 1 as [s Hs|s r rest Hs Hr _ IH|s e rest Hs _ IHe _ IH
                 |name names attrs Hname Hattrs
                 |name names attrs body Hname Hattrs _ IH];
    rewrite ?all_chars_app.
  - by apply char_data_xml.
  - by rewrite (char_data_xml _ Hs), (reference_xml _ Hr), IH.
  - by rewrite (char_data_xml _ Hs), IHe, IH.
  - by rewrite (name_xml _ Hname), (attributes_xml _ _ Hattrs).
  - by rewrite (name_xml _ Hname), (attributes_xml _ _ Hattrs), IH.
Qed.

Lemma fraction_of_spec (q : Question) (a : string) :
  (fraction_of q a = "100" ↔ a = correct_choice q) ∧
  (fraction_of q a = "0" ↔ a ≠ correct_choice q) ∧
  (feedback_of q a = "Correct!" ↔ a = correct_choice q) ∧
  (feedback_of q a = "Incorrect." ↔ a ≠ correct_choice q).
Proof. unfold fraction_of, feedback_of. by case_decide. Qed.

(** C8 (amended). The Moodle text is the serialization of a [quiz]
    element with one [question] element of type [multichoice] per input
    question in order, each holding a [name], a [questiontext] of format
    [html] whose text is the stem between the CDATA markers, and one
    [answer] element per choice whose [fraction] attribute is ["100"]
    exactly when the choice string equals the correct choice and ["0"]
    otherwise, with the feedback [Correct!] for the former and
    [Incorrect.] for the latter; and it is well-formed markup when the
    stems and choices hold only characters XML allows. *)
Theorem moodle_xml_structure (questions : list Question) :
  create_moodle_xml questions = serialize (quiz_spec questions) ∧
  (∀ q a,
     (fraction_of q a = "100" ↔ a = correct_choice q) ∧
     (fraction_of q a = "0" ↔ a ≠ correct_choice q) ∧
     (feedback_of q a = "Correct!" ↔ a = correct_choice q) ∧
     (feedback_of q a = "Incorrect." ↔ a ≠ correct_choice q)) ∧
  (forallb xml_text questions = true →
   well_formed (create_moodle_xml questions)).
Proof.
  unfold create_moodle_xml. rewrite quiz_tree_spec.
  split; [done|]. split; [apply fraction_of_spec|].
  intros H. apply serialize_well_formed. by apply tree_ok_quiz_spec.
Qed.

Lemma moodle_xml_structure_witness :
  forallb xml_text [Aiken.sample_question] = true ∧
  well_formed (create_moodle_xml [Aiken.sample_question]).
Proof.
  assert (forallb xml_text [Aiken.sample_question] = true) as H
    by (vm_compute; reflexivity).
  split; [exact H|].
  exact (proj2 (proj2 (moodle_xml_structure [Aiken.sample_question])) H).
Defined.

(** The claim as worded fails on a stem with a form feed: the
    serializer writes the character as it is, and no well-formed
    document holds it. *)
Lemma moodle_well_formed_counterexample :
  ¬ (∀ questions, well_formed (create_moodle_xml questions)).
Proof.
  intros H. specialize (H [form_feed_question]).
  apply derives_xml_chars in H. by vm_compute in H.
Qed.

End moodle_facts.

(** ** The generation pipeline *)

Section pipeline_facts.
Import Pipeline.

Variable translate : string → result string.
Variable get_all_summary : string → result (list string * list string).
Variable get_keywords : list string → list string → result (list string).
Variable get_output : list string → result (list string * list (list string)).
Variable get_all_questions : list string → list string → result (list string).
Variable store_up : store_call → history → bool.

Local Abbreviation generate :=
  (generate_que_n_ans get_all_summary get_keywords get_output get_all_questions).
Local Abbreviation run :=
  (process_request translate get_all_summary get_keywords get_output
     get_all_questions store_up).
Local Abbreviation was_generated :=
  (generated translate get_all_summary get_keywords get_output get_all_questions).

End pipeline_facts.

(** ** The bearer gate *)

Section auth_facts.
Import Auth.

Variable jwt_decode : string → decode_outcome.

(** The gate lets a request pass exactly when the scheme is the string
    [Bearer], letter for letter, and the token decodes; what it hands to
    the endpoint is the token of the header, unchanged. *)
Theorem gate_accepts_iff (parent : result (option Credentials)) (token : string) :
  call jwt_decode parent = Ok token ↔
  ∃ c, parent = Ok (Some c) ∧ scheme c = "Bearer" ∧
       jwt_decode (credentials c) = Decoded ∧ token = credentials c.
Proof.
  unfold call, verify_jwt. split.
  - destruct parent as [[c|]|e]; try done. cbn [mbind result_bind].
    case_bool_decide as Hs; [|done]. cbn [negb].
    destruct (jwt_decode (credentials c)) eqn:Hd; try done.
    cbn [mbind result_bind negb]. intros [= <-]. by exists c.
  - intros (c & -> & Hs & Hd & ->). cbn [mbind result_bind].
    rewrite bool_decide_eq_true_2 by done. cbn [negb]. by rewrite Hd.
Qed.

(** Whatever the gate itself refuses, it refuses with status 403 and one
    of four details; the detail of the branch after [verify_jwt] is not
    among them, since [verify_jwt] raises instead of returning false. *)
Theorem gate_rejections (creds : option Credentials) (e : exn) :
  call jwt_decode (Ok creds) = Raise e →
  ∃ detail,
    e = HTTPException 403 detail ∧
    detail ∈ [ "Invalid authorization code."; "Invalid authentication scheme.";
               "Token expired"; "Invalid token" ] ∧
    detail ≠ "Invalid token or expired token.".
Proof.
  unfold call, verify_jwt. cbn [mbind result_bind].
  destruct creds as [c|].
  - case_bool_decide as Hs; cbn [negb].
    + destruct (jwt_decode (credentials c)); try done;
        cbn [mbind result_bind]; intros [= <-]; eexists;
        (split; [done|]); (split; [set_solver|done]).
    + intros [= <-]. eexists. split; [done|]. split; [set_solver|done].
  - intros [= <-]. eexists. split; [done|]. split; [set_solver|done].
Qed.

(** A scheme that differs from [Bearer], be it only in the case of a
    letter, is refused before the token is looked at. *)
Theorem gate_scheme_is_case_sensitive (c : Credentials) :
  scheme c ≠ "Bearer" →
  call jwt_decode (Ok (Some c)) =
    Raise (HTTPException 403 "Invalid authentication scheme.").
Proof.
  intros Hs. unfold call. cbn [mbind result_bind].
  by rewrite bool_decide_eq_false_2.
Qed.

End auth_facts.

Lemma gate_rejections_witness :
  Auth.call Auth.sample_decode (Ok (Some (Auth.mkCredentials "Bearer" "old.token")))
    = Raise (HTTPException 403 "Token expired") ∧
  ∃ detail,
    HTTPException 403 "Token expired" = HTTPException 403 detail ∧
    detail ∈ [ "Invalid authorization code."; "Invalid authentication scheme.";
               "Token expired"; "Invalid token" ] ∧
    detail ≠ "Invalid token or expired token.".
Proof.
  assert (Auth.call Auth.sample_decode
            (Ok (Some (Auth.mkCredentials "Bearer" "old.token")))
          = Raise (HTTPException 403 "Token expired")) as H by reflexivity.
  split; [exact H|].
  exact (gate_rejections Auth.sample_decode _ _ H).
Defined.

Lemma gate_scheme_is_case_sensitive_witness :
  Auth.scheme (Auth.mkCredentials "bearer" "good.token") ≠ "Bearer" ∧
  Auth.call Auth.sample_decode (Ok (Some (Auth.mkCredentials "bearer" "good.token")))
    = Raise (HTTPException 403 "Invalid authentication scheme.").
Proof.
  assert (Auth.scheme (Auth.mkCredentials "bearer" "good.token") ≠ "Bearer")
    as H by (simpl; discriminate).
  split; [exact H|].
  exact (gate_scheme_is_case_sensitive Auth.sample_decode _ H).
Defined.

(** ** Comments *)

Section comment_facts.
Import Comments.

Lemma comment_questions_run (data : gmap string stored) (l : list entry)
    (u c now : string) :
  stored_comments data = Some l →
  let data' := <["comments" := SList (l ++ [EComment (mkComment u c now)])]> data in
  comment_questions u c now (Some data) = (Ok data', Some data').
Proof.
  intros H data'. unfold comment_questions.
  assert (default (SList []) (data !! "comments") = SList l) as ->.
  { unfold stored_comments in H.
    destruct (data !! "comments") as [[]|]; by simplify_eq/=. }
  done.
Qed.


(** Comments are only ever appended: after any series of comment
    requests on a document, the list is the list of before followed by
    the new comments in the order of handling, and no other field of the
    document has changed. *)
Theorem comments_append_only (requests : list (string * string * string))
    (data : gmap string stored) (l : list entry) :
  stored_comments data = Some l →
  ∃ data',
    comment_all requests (Some data) = Some data' ∧
    stored_comments data' =
      Some (l ++ ((λ r, EComment (mkComment r.1.1 r.1.2 r.2)) <$> requests)) ∧
    ∀ key, key ≠ "comments" → data' !! key = data !! key.
Proof.
  revert data l. induction requests as [|[[u c] now] rest IH]; intros data l Hl.
  - exists data. simpl. by rewrite List.app_nil_r.
  - cbn [comment_all]. rewrite (comment_questions_run _ l) by done. cbn [snd].
    set (data1 := <["comments" := _]> data).
    destruct (IH data1 (l ++ [EComment (mkComment u c now)])) as (data' & Hall & Hc & Hk).
    { unfold stored_comments, data1. by rewrite lookup_insert_eq. }
    exists data'. split; [done|]. split.
    + rewrite Hc, fmap_cons. by rewrite <- List.app_assoc.
    + intros key Hkey. rewrite Hk by done. unfold data1.
      by rewrite lookup_insert_ne.
Qed.

Lemma comments_append_only_witness :
  stored_comments commented_document =
    Some [EComment (mkComment "ann" "Too easy" "2024-05-01T10:00:00")] ∧
  ∃ data',
    comment_all [("bob", "Agreed", "2024-05-02T09:30:00");
                 ("ann", "Thanks", "2024-05-02T09:31:00")]
      (Some commented_document) = Some data' ∧
    stored_comments data' =
      Some [EComment (mkComment "ann" "Too easy" "2024-05-01T10:00:00");
            EComment (mkComment "bob" "Agreed" "2024-05-02T09:30:00");
            EComment (mkComment "ann" "Thanks" "2024-05-02T09:31:00")].
Proof.
  assert (stored_comments commented_document =
    Some [EComment (mkComment "ann" "Too easy" "2024-05-01T10:00:00")]) as H
    by reflexivity.
  split; [exact H|].
  destruct (comments_append_only
              [("bob", "Agreed", "2024-05-02T09:30:00");
               ("ann", "Thanks", "2024-05-02T09:31:00")] _ _ H)
    as (data' & Hall & Hc & _).
  exists data'. split; [exact Hall|exact Hc].
Defined.

End comment_facts.

(** ** Documents by path *)

Section db_facts.
Import Db.


Lemma rate_at_other (p q : path) (rating : Rating)
    (db : gmap path (gmap string value)) :
  p ≠ q →
  (on_document (Rate.rate_questions rating) p db).2 !! q = db !! q.
Proof.
  intros Hne. unfold on_document.
  destruct (Rate.rate_questions rating (db !! p)) as [r [d|]]; simpl.
  - by rewrite lookup_insert_ne.
  - by rewrite lookup_delete_ne.
Qed.

Lemma rate_at_same (p : path) (rating : Rating)
    (db : gmap path (gmap string value)) :
  (on_document (Rate.rate_questions rating) p db).2 !! p =
  (Rate.rate_questions rating (db !! p)).2.
Proof.
  unfold on_document.
  destruct (Rate.rate_questions rating (db !! p)) as [r [d|]]; simpl.
  - by rewrite lookup_insert_eq.
  - by rewrite lookup_delete_eq.
Qed.

Lemma rate_at_response (p : path) (rating : Rating)
    (db : gmap path (gmap string value)) :
  (on_document (Rate.rate_questions rating) p db).1 =
  (Rate.rate_questions rating (db !! p)).1.
Proof.
  unfold on_document. by destruct (Rate.rate_questions rating (db !! p)) as [r [d|]].
Qed.

(** Ratings of different questions do not interfere: handled in either
    order they get the same responses and leave the same store, and a
    rating never creates or removes a document. *)
Theorem ratings_of_different_questions_commute
    (u1 n1 q1 u2 n2 q2 : string) (r1 r2 : Rating)
    (db : gmap path (gmap string value)) :
  (u1, n1, q1) ≠ (u2, n2, q2) →
  let '(resp1, db1) := rate_at u1 n1 q1 r1 db in
  let '(resp2, db12) := rate_at u2 n2 q2 r2 db1 in
  let '(resp2', db2) := rate_at u2 n2 q2 r2 db in
  let '(resp1', db21) := rate_at u1 n1 q1 r1 db2 in
  resp1 = resp1' ∧ resp2 = resp2' ∧ db12 = db21 ∧ dom db12 = dom db.
Proof.
  intros Hne. unfold rate_at.
  set (p1 := (u1, n1, q1)) in *. set (p2 := (u2, n2, q2)) in *.
  destruct (on_document (Rate.rate_questions r1) p1 db) as [resp1 db1] eqn:E1.
  destruct (on_document (Rate.rate_questions r2) p2 db1) as [resp2 db12] eqn:E12.
  destruct (on_document (Rate.rate_questions r2) p2 db) as [resp2' db2] eqn:E2.
  destruct (on_document (Rate.rate_questions r1) p1 db2) as [resp1' db21] eqn:E21.
  assert (db1 !! p2 = db !! p2) as H12.
  { change db1 with (resp1, db1).2. rewrite <- E1. by apply rate_at_other. }
  assert (db2 !! p1 = db !! p1) as H21.
  { change db2 with (resp2', db2).2. rewrite <- E2. by apply rate_at_other. }
  assert (resp1 = resp1') as Hr1.
  { change resp1 with (resp1, db1).1. change resp1' with (resp1', db21).1.
    rewrite <- E1, <- E21, !rate_at_response.
    apply (f_equal (λ d, (Rate.rate_questions r1 d).1)). symmetry. exact H21. }
  assert (resp2 = resp2') as Hr2.
  { change resp2 with (resp2, db12).1. change resp2' with (resp2', db2).1.
    rewrite <- E12, <- E2, !rate_at_response.
    apply (f_equal (λ d, (Rate.rate_questions r2 d).1)). exact H12. }
  assert (∀ q, db12 !! q = db21 !! q) as Hq.
  { intros q.
    change db12 with (resp2, db12).2. change db21 with (resp1', db21).2.
    rewrite <- E12, <- E21.
    destruct (decide (q = p2)) as [->|Hq2].
    - rewrite rate_at_same, rate_at_other by done.
      change db2 with (resp2', db2).2. rewrite <- E2. rewrite rate_at_same.
      apply (f_equal (λ d, (Rate.rate_questions r2 d).2)). exact H12.
    - rewrite rate_at_other by done.
      change db1 with (resp1, db1).2. rewrite <- E1.
      destruct (decide (q = p1)) as [->|Hq1].
      + rewrite !rate_at_same.
        apply (f_equal (λ d, (Rate.rate_questions r1 d).2)). symmetry. exact H21.
      + rewrite !rate_at_other by done.
        change db2 with (resp2', db2).2. rewrite <- E2.
        by rewrite rate_at_other. }
  split_and!; [done|done|by apply map_eq|].
  apply set_eq. intros q. rewrite !elem_of_dom.
  change db12 with (resp2, db12).2. rewrite <- E12.
  assert (∀ r p (d : gmap path (gmap string value)),
    is_Some ((on_document (Rate.rate_questions r) p d).2 !! q) ↔ is_Some (d !! q))
    as Hdom.
  { intros r p d. destruct (decide (q = p)) as [->|Hqp].
    - rewrite rate_at_same. unfold Rate.rate_questions.
      destruct (d !! p) as [data|]; [|done].
      destruct (default (VRatings []) (data !! "rating")); simpl;
        split; eauto.
    - by rewrite rate_at_other. }
  rewrite Hdom. change db1 with (resp1, db1).2. rewrite <- E1. apply Hdom.
Qed.

Lemma ratings_of_different_questions_commute_witness :
  ("u1", "facts", "q1") ≠ ("u1", "facts", "q2") ∧
  (rate_at "u1" "facts" "q2" (mkRating "bob" 1)
     (rate_at "u1" "facts" "q1" (mkRating "ann" 5) sample_db).2).2 =
  (rate_at "u1" "facts" "q1" (mkRating "ann" 5)
     (rate_at "u1" "facts" "q2" (mkRating "bob" 1) sample_db).2).2.
Proof.
  assert (("u1", "facts", "q1") ≠ ("u1", "facts", "q2")) as H by discriminate.
  split; [exact H|].
  pose proof (ratings_of_different_questions_commute
                "u1" "facts" "q1" "u1" "facts" "q2"
                (mkRating "ann" 5) (mkRating "bob" 1) sample_db H) as Hc.
  destruct (rate_at "u1" "facts" "q1" (mkRating "ann" 5) sample_db) as [a1 d1].
  cbn [snd].
  destruct (rate_at "u1" "facts" "q2" (mkRating "bob" 1) d1) as [a2 d12].
  destruct (rate_at "u1" "facts" "q2" (mkRating "bob" 1) sample_db) as [b2 d2].
  cbn [snd].
  destruct (rate_at "u1" "facts" "q1" (mkRating "ann" 5) d2) as [b1 d21].
  exact (proj1 (proj2 (proj2 Hc))).
Defined.

End db_facts.
